(** * Greynir: the sentence / job orchestration layer of [reynir.py]

    A shallow embedding of [src/reynir/reynir.py]: the [_Sentence] and
    [_Job] classes, the paragraph / sentence iteration, the noun-phrase
    job and the dump / load pair, followed by the properties proved
    about them.

    Conventions of the embedding.
    - Python [int] is [Z]; Python [float] is a real number [R] (rounding
      and overflow are not modelled); [str] is [string].
    - Instance dictionaries are records of attribute slots: a slot of
      type [attr A] is [None] when the dictionary has no such key, and
      reading it raises [AttributeError].
    - Code runs in a small state-and-exception monad over a [World]
      holding the one job object sentences point back to, the trace of
      calls made to collaborators and callbacks, and the clock.  State
      changes made before an exception is raised survive it, as in
      Python.
    - The tokenizer, the grammar engine, the reducer, the language
      classifier and the spacing corrector live outside this module and
      are taken as the fields of the class [Collaborators]. *)

From Stdlib Require Import ZArith List String Ascii Bool Lia Reals Lra.
From Stdlib Require Import DecimalString Sorted.
Import ListNotations.

Local Open Scope string_scope.
Local Open Scope Z_scope.

(** ** Exceptions and the monad *)

(** The exceptions that can leave the functions modelled here.
    [ParseError] carries its message and its [token_index] keyword. *)
Inductive exn : Type :=
| ParseError (msg : string) (token_index : option Z)
| AssertionError
| AttributeError (name : string)
| ValueError (msg : string)
| ZeroDivisionError.

Inductive outcome (A : Type) : Type :=
| Ret (a : A)
| Raise (e : exn).
Arguments Ret {A} a.
Arguments Raise {A} e.

(** State survives a raise: the second component is always the state
    the callee left behind. *)
Definition SE (S A : Type) : Type := S -> outcome A * S.

Definition ret {S A} (a : A) : SE S A := fun w => (Ret a, w).

Definition raise {S A} (e : exn) : SE S A := fun w => (Raise e, w).

Definition bind {S A B} (m : SE S A) (k : A -> SE S B) : SE S B :=
  fun w =>
    match m w with
    | (Ret a, w') => k a w'
    | (Raise e, w') => (Raise e, w')
    end.

Notation "x <- m ;; k" := (bind m (fun x => k))
  (at level 61, m at next level, right associativity).
Notation "m ;;; k" := (bind m (fun _ => k))
  (at level 61, right associativity).

Definition gets {S A} (f : S -> A) : SE S A := fun w => (Ret (f w), w).

Definition modify {S} (f : S -> S) : SE S unit := fun w => (Ret tt, f w).

(** [assert cond] *)
Definition assert {S} (cond : bool) : SE S unit :=
  if cond then ret tt else raise AssertionError.

(** An attribute slot of an instance dictionary. *)
Definition attr (A : Type) : Type := option A.

(** [obj.name]: the value of the slot, or [AttributeError]. *)
Definition getattr {S A} (name : string) (slot : attr A) : SE S A :=
  match slot with
  | Some v => ret v
  | None => raise (AttributeError name)
  end.

(** ** Tokens *)

(** [tokenizer.Tok]: a (kind, txt, val) triple.  [txt] may be [None]. *)
Record Tok_ (V : Type) : Type := mkTok {
  kind : Z;
  txt : option string;
  val : V
}.
Arguments mkTok {V} kind txt val.
Arguments kind {V} t.
Arguments txt {V} t.
Arguments val {V} t.

(** Python truth value of [t.txt]. *)
Definition truthy_txt (o : option string) : bool :=
  match o with
  | None => false
  | Some "" => false
  | Some _ => true
  end.

(** [len(s)] *)
Definition len {A} (s : list A) : Z := Z.of_nat (List.length s).

(** [sep.join(parts)] *)
Fixpoint join (sep : string) (parts : list string) : string :=
  match parts with
  | [] => ""
  | [p] => p
  | p :: rest => p ++ sep ++ join sep rest
  end.

(** [str(n)] / ["{0}".format(n)] for an integer. *)
Definition str_of_int (n : Z) : string := NilZero.string_of_int (Z.to_int n).

(** ** The simplified tree

    Modelled from the spec: the tree query layer ([simpletree.SimpleTree])
    is not part of the sources.  The spec describes a simplified tree as
    a query-friendly view that is built directly from a persisted nested
    structural record, its serialised head; so a [SimpleTree] is the
    view over one head, [SimpleTree_init pgs] is the constructor called
    as [SimpleTree([[head]])], and every node accessor is a function of
    the view. *)
Record SimpleTree_ (H : Type) : Type := mkSimpleTree {
  _head : H
}.
Arguments mkSimpleTree {H} _head.
Arguments _head {H} s.

(** ** Collaborators *)

Class Collaborators : Type := {
  (** payload of a token, [Tok.val] *)
  Val : Type;
  (** the deep parse forest / tree built by the grammar engine *)
  Forest : Type;
  (** the nested structural record a simplified tree is a view of *)
  Head : Type;
  (** value a [SimpleTree] is given for zero or several sentences *)
  empty_head : Head;
  (** [time.time()]: the n-th reading of the clock *)
  time_time : nat -> R;
  (** [incparser.ICELANDIC_RATIO] *)
  ICELANDIC_RATIO : R;
  (** [bintokenizer.tokens_are_foreign(tokens, min_icelandic_ratio)] *)
  tokens_are_foreign : list (Tok_ Val) -> R -> bool;
  (** [Fast_Parser.go(tokens, root=...)]: a forest, [None], or a
      [ParseError] given as its (message, token_index) *)
  parser_go :
    list (Tok_ Val) -> option string ->
    (option Forest) + (string * option Z);
  (** [Fast_Parser.num_combinations(forest)] *)
  num_combinations : Forest -> Z;
  (** [Reducer.go_with_score(forest)] *)
  go_with_score : Forest -> Forest * Z;
  (** [tokenizer.paragraphs(tokens)]: paragraphs of (index, sentence) *)
  paragraphs : list (Tok_ Val) -> list (list (Z * list (Tok_ Val)));
  (** [tokenizer.correct_spaces(text)] *)
  correct_spaces : string -> string;
  (** [bintokenizer.load_token]'s conversion of a serialised payload *)
  load_val : Z -> option string -> Val -> Val;
  (** [SimpleTree.from_deep_tree(tree, tokens)] *)
  from_deep_tree : Forest -> list (Tok_ Val) -> SimpleTree_ Head;
  (** [tree.descendants] and the node properties read by this module *)
  descendants : SimpleTree_ Head -> list (SimpleTree_ Head);
  is_terminal : SimpleTree_ Head -> bool;
  node_text : SimpleTree_ Head -> string;
  node_lemma : SimpleTree_ Head -> string;
  node_tcat : SimpleTree_ Head -> string;
  node_cat : SimpleTree_ Head -> string;
  node_lemma_cat : SimpleTree_ Head -> string;
  node_all_variants : SimpleTree_ Head -> list string;
  node_index : SimpleTree_ Head -> Z;
  node_ifd_tags : SimpleTree_ Head -> list string;
  node_flat : SimpleTree_ Head -> string
}.

Section Model.

Context {X : Collaborators}.

Definition Tok : Type := Tok_ Val.
Definition TokenList : Type := list Tok.
Definition SimpleTree : Type := SimpleTree_ Head.

(** [SimpleTree(pgs)]: the paragraphs are flattened into one array of
    sentences; the view has a head when there is exactly one. *)
Definition SimpleTree_init (pgs : list (list Head)) : SimpleTree :=
  match List.concat pgs with
  | [h] => mkSimpleTree h
  | _ => mkSimpleTree empty_head
  end.

(** ** The [Greynir] object and the job *)

Record Greynir : Type := mkGreynir {
  _parse_foreign_sentences : bool
}.

(** The progress callback is an opaque callable; its calls are recorded
    in the trace. *)
Inductive callback : Type := ProgressFunc.

(** Which class the job is: [_Job] or [_Job_NP]. *)
Inductive job_class : Type := Class_Job | Class_Job_NP.

Record Job : Type := mkJob {
  job_cls : job_class;
  _r : Greynir;
  _tokens : list Tok;
  _parse_time : R;
  _reduce_time : R;
  _parse : bool;
  _cnt_sent : Z;
  _num_sent : Z;
  _num_parsed : Z;
  _num_tokens : Z;
  _num_combinations : Z;
  _total_ambig : R;
  _total_tokens : Z;
  _root : option string;
  _progress_func : option callback;
  _max_sent_tokens : Z
}.

Definition DEFAULT_MAX_SENT_TOKENS : Z := 90.

(** [_Job.__init__] *)
Definition Job_init (cls : job_class) (greynir : Greynir) (tokens : list Tok)
    (parse : bool) (root : option string) (progress_func : option callback)
    (max_sent_tokens : Z) : Job :=
  {| job_cls := cls;
     _r := greynir;
     _tokens := tokens;
     _parse_time := 0%R;
     _reduce_time := 0%R;
     _parse := parse;
     _cnt_sent := 0;
     _num_sent := 0;
     _num_parsed := 0;
     _num_tokens := 0;
     _num_combinations := 0;
     _total_ambig := 0%R;
     _total_tokens := 0;
     _root := root;
     _progress_func := progress_func;
     _max_sent_tokens := max_sent_tokens |}.

(** Attribute assignments [self.x = v] on a job. *)
Definition set_parse_time (v : R) (j : Job) : Job :=
  mkJob (job_cls j) (_r j) (_tokens j) v (_reduce_time j) (_parse j)
    (_cnt_sent j) (_num_sent j) (_num_parsed j) (_num_tokens j)
    (_num_combinations j) (_total_ambig j) (_total_tokens j) (_root j)
    (_progress_func j) (_max_sent_tokens j).

Definition set_reduce_time (v : R) (j : Job) : Job :=
  mkJob (job_cls j) (_r j) (_tokens j) (_parse_time j) v (_parse j)
    (_cnt_sent j) (_num_sent j) (_num_parsed j) (_num_tokens j)
    (_num_combinations j) (_total_ambig j) (_total_tokens j) (_root j)
    (_progress_func j) (_max_sent_tokens j).

Definition set_cnt_sent (v : Z) (j : Job) : Job :=
  mkJob (job_cls j) (_r j) (_tokens j) (_parse_time j) (_reduce_time j)
    (_parse j) v (_num_sent j) (_num_parsed j) (_num_tokens j)
    (_num_combinations j) (_total_ambig j) (_total_tokens j) (_root j)
    (_progress_func j) (_max_sent_tokens j).

Definition set_num_sent (v : Z) (j : Job) : Job :=
  mkJob (job_cls j) (_r j) (_tokens j) (_parse_time j) (_reduce_time j)
    (_parse j) (_cnt_sent j) v (_num_parsed j) (_num_tokens j)
    (_num_combinations j) (_total_ambig j) (_total_tokens j) (_root j)
    (_progress_func j) (_max_sent_tokens j).

Definition set_num_parsed (v : Z) (j : Job) : Job :=
  mkJob (job_cls j) (_r j) (_tokens j) (_parse_time j) (_reduce_time j)
    (_parse j) (_cnt_sent j) (_num_sent j) v (_num_tokens j)
    (_num_combinations j) (_total_ambig j) (_total_tokens j) (_root j)
    (_progress_func j) (_max_sent_tokens j).

Definition set_num_tokens (v : Z) (j : Job) : Job :=
  mkJob (job_cls j) (_r j) (_tokens j) (_parse_time j) (_reduce_time j)
    (_parse j) (_cnt_sent j) (_num_sent j) (_num_parsed j) v
    (_num_combinations j) (_total_ambig j) (_total_tokens j) (_root j)
    (_progress_func j) (_max_sent_tokens j).

Definition set_num_combinations (v : Z) (j : Job) : Job :=
  mkJob (job_cls j) (_r j) (_tokens j) (_parse_time j) (_reduce_time j)
    (_parse j) (_cnt_sent j) (_num_sent j) (_num_parsed j) (_num_tokens j)
    v (_total_ambig j) (_total_tokens j) (_root j)
    (_progress_func j) (_max_sent_tokens j).

Definition set_total_ambig (v : R) (j : Job) : Job :=
  mkJob (job_cls j) (_r j) (_tokens j) (_parse_time j) (_reduce_time j)
    (_parse j) (_cnt_sent j) (_num_sent j) (_num_parsed j) (_num_tokens j)
    (_num_combinations j) v (_total_tokens j) (_root j)
    (_progress_func j) (_max_sent_tokens j).

Definition set_total_tokens (v : Z) (j : Job) : Job :=
  mkJob (job_cls j) (_r j) (_tokens j) (_parse_time j) (_reduce_time j)
    (_parse j) (_cnt_sent j) (_num_sent j) (_num_parsed j) (_num_tokens j)
    (_num_combinations j) (_total_ambig j) v (_root j)
    (_progress_func j) (_max_sent_tokens j).

(** ** The world *)

(** What the module does to its surroundings, in the order it happens. *)
Inductive event : Type :=
| EvSegment (ix : Z) (sent : TokenList)
    (** a sentence pulled out of the tokenizer's segmentation *)
| EvProgress (v : R)
    (** the progress callback called with [v] *)
| EvSentence (s : TokenList)
    (** a sentence object created for [s] and handed to the consumer *)
| EvParserGo (tokens : TokenList) (root : option string)
    (** the grammar engine invoked *)
| EvReduce (forest : Forest)
    (** the reduction engine invoked *).

Record World : Type := mkWorld {
  job : Job;
  log : list event;
  ticks : nat
}.

Definition M (A : Type) : Type := SE World A.

Definition new_world (j : Job) : World :=
  {| job := j; log := []; ticks := O |}.

Definition modify_job (f : Job -> Job) : M unit :=
  modify (fun w => mkWorld (f (job w)) (log w) (ticks w)).

Definition emit (e : event) : M unit :=
  modify (fun w => mkWorld (job w) (log w ++ [e])%list (ticks w)).

(** [time.time()] *)
Definition now : M R :=
  fun w => (Ret (time_time (ticks w)), mkWorld (job w) (log w) (S (ticks w))).

(** [self._progress_func(v)] *)
Definition call_progress (v : R) : M unit := emit (EvProgress v).

(** [_Job.parse_foreign_sentences] *)
Definition parse_foreign_sentences (j : Job) : bool :=
  _parse_foreign_sentences (_r j).

(** [_Job.parse_immediately] *)
Definition parse_immediately (j : Job) : bool := _parse j.

(** [_Job._add_sentence] *)
Definition Job_add_sentence (s : TokenList) (num : Z)
    (parse_time reduce_time : R) : M unit :=
  let slen := len s in
  modify_job (fun j => set_num_sent (_num_sent j + 1) j) ;;;
  modify_job (fun j => set_num_tokens (_num_tokens j + slen) j) ;;;
  (if 0 <? num then
     modify_job (fun j => set_num_parsed (_num_parsed j + 1) j) ;;;
     modify_job (fun j => set_num_combinations (_num_combinations j + num) j) ;;;
     (if slen =? 0 then raise ZeroDivisionError else ret tt) ;;;
     let ambig_factor := Rpower (IZR num) (1 / IZR slen) in
     modify_job (fun j =>
       set_total_ambig (_total_ambig j + ambig_factor * IZR slen)%R j) ;;;
     modify_job (fun j => set_total_tokens (_total_tokens j + slen) j)
   else ret tt) ;;;
  modify_job (fun j => set_parse_time (_parse_time j + parse_time)%R j) ;;;
  modify_job (fun j => set_reduce_time (_reduce_time j + reduce_time)%R j) ;;;
  j <- gets job ;;
  match _progress_func j with
  | Some _ =>
      assert (0 <? _cnt_sent j) ;;;
      assert (_num_sent j + 1 <=? _cnt_sent j) ;;;
      call_progress (IZR (_num_sent j + 1) / IZR (_cnt_sent j))%R
  | None => ret tt
  end.


(** The other statistics properties. *)
Definition Job_num_tokens (j : Job) : Z := _num_tokens j.
Definition Job_num_sentences (j : Job) : Z := _num_sent j.
Definition Job_num_parsed (j : Job) : Z := _num_parsed j.
Definition Job_num_combinations (j : Job) : Z := _num_combinations j.
Definition Job_parse_time (j : Job) : R := _parse_time j.
Definition Job_reduce_time (j : Job) : R := _reduce_time j.

(** What the body of the [try] in [_Job.parse] leaves in the local
    variables [forest], [num], [score] and [t1] when it returns. *)
Definition parse_locals : Type := (option Forest * Z * Z * R)%type.

(** The body of the [try] statement of [_Job.parse]; [t0] is the clock
    reading taken before it. *)
Definition Job_parse_body (tokens : TokenList) (t0 : R) : M parse_locals :=
  j <- gets job ;;
  if negb (_max_sent_tokens j =? 0) && (_max_sent_tokens j <? len tokens)
  then
    raise (ParseError
             ("Sentence is longer than " ++ str_of_int (_max_sent_tokens j)
              ++ " tokens")
             (Some (_max_sent_tokens j)))
  else if negb (parse_foreign_sentences j)
          && tokens_are_foreign tokens ICELANDIC_RATIO
  then raise (ParseError "Sentence is probably not in Icelandic" (Some 0))
  else
    emit (EvParserGo tokens (_root j)) ;;;
    match parser_go tokens (_root j) with
    | inr (msg, ix) => raise (ParseError msg ix)
    | inl forest =>
        t1 <- now ;;
        match forest with
        | None => ret (None, 0, 0, t1)
        | Some f =>
            let num := num_combinations f in
            if 1 <? num
            then
              emit (EvReduce f) ;;;
              let '(f', score) := go_with_score f in
              ret (Some f', num, score, t1)
            else ret (Some f, num, 0, t1)
        end
    end.

(** [_Job.parse]: the [try] body, then the [finally] clause, which sees
    the locals as the body left them ([num = 0] and [t1 = t0] when it
    raised) and whose own exception replaces the body's outcome. *)
Definition Job_parse (tokens : TokenList) : M (option Forest * Z * Z) :=
  fun w =>
    let '(t0r, w0) := now w in
    let t0 := match t0r with Ret t => t | Raise _ => 0%R end in
    let '(r, w1) := Job_parse_body tokens t0 w0 in
    let '(num, t1) :=
      match r with
      | Ret (_, num, _, t1) => (num, t1)
      | Raise _ => (0, t0)
      end in
    let finally :=
      t <- now ;;
      Job_add_sentence tokens num (t - t0)%R (t - t1)%R in
    match finally w1 with
    | (Raise e, w2) => (Raise e, w2)
    | (Ret _, w2) =>
        match r with
        | Ret (forest, num, score, _) => (Ret (forest, num, score), w2)
        | Raise e => (Raise e, w2)
        end
    end.

(** ** Sentences *)

(** [Terminal], the named tuple of [_Sentence.terminals]. *)
Record Terminal : Type := mkTerminal {
  text : string;
  lemma : string;
  category : string;
  variants : list string;
  index : Z
}.

(** The class of a sentence object: [_Sentence] or [_NounPhrase]. *)
Inductive sentence_class : Type := Class_Sentence | Class_NounPhrase.

(** A reference to the job object held by the world. *)
Inductive job_ref : Type := TheJob.

(** The instance dictionary of a sentence.  [dict_len] is the key
    ["len"]; [dict_text] and [dict_terminal_nodes] are the keys under
    which the cached properties [text] and [terminal_nodes] store their
    value. *)
Record Sentence : Type := mkSentence {
  sent_cls : sentence_class;
  _job : attr (option job_ref);
  _s : attr TokenList;
  _len : attr Z;
  dict_len : attr Z;
  _err_index : attr (option Z);
  _error : attr (option exn);
  _tree : attr (option Forest);
  _simplified_tree : attr (option SimpleTree);
  _num : attr (option Z);
  _score : attr (option Z);
  _terminals : attr (option (list Terminal));
  dict_text : attr string;
  dict_terminal_nodes : attr (list SimpleTree)
}.

(** Attribute assignments [self.x = v] on a sentence. *)
Definition set_err_index (v : option Z) (x : Sentence) : Sentence :=
  mkSentence (sent_cls x) (_job x) (_s x) (_len x) (dict_len x) (Some v)
    (_error x) (_tree x) (_simplified_tree x) (_num x) (_score x)
    (_terminals x) (dict_text x) (dict_terminal_nodes x).

Definition set_error (v : option exn) (x : Sentence) : Sentence :=
  mkSentence (sent_cls x) (_job x) (_s x) (_len x) (dict_len x)
    (_err_index x) (Some v) (_tree x) (_simplified_tree x) (_num x)
    (_score x) (_terminals x) (dict_text x) (dict_terminal_nodes x).

Definition set_tree (v : option Forest) (x : Sentence) : Sentence :=
  mkSentence (sent_cls x) (_job x) (_s x) (_len x) (dict_len x)
    (_err_index x) (_error x) (Some v) (_simplified_tree x) (_num x)
    (_score x) (_terminals x) (dict_text x) (dict_terminal_nodes x).

Definition set_simplified_tree (v : option SimpleTree) (x : Sentence)
    : Sentence :=
  mkSentence (sent_cls x) (_job x) (_s x) (_len x) (dict_len x)
    (_err_index x) (_error x) (_tree x) (Some v) (_num x)
    (_score x) (_terminals x) (dict_text x) (dict_terminal_nodes x).

Definition set_num (v : option Z) (x : Sentence) : Sentence :=
  mkSentence (sent_cls x) (_job x) (_s x) (_len x) (dict_len x)
    (_err_index x) (_error x) (_tree x) (_simplified_tree x) (Some v)
    (_score x) (_terminals x) (dict_text x) (dict_terminal_nodes x).

Definition set_score (v : option Z) (x : Sentence) : Sentence :=
  mkSentence (sent_cls x) (_job x) (_s x) (_len x) (dict_len x)
    (_err_index x) (_error x) (_tree x) (_simplified_tree x) (_num x)
    (Some v) (_terminals x) (dict_text x) (dict_terminal_nodes x).

Definition set_terminals (v : option (list Terminal)) (x : Sentence)
    : Sentence :=
  mkSentence (sent_cls x) (_job x) (_s x) (_len x) (dict_len x)
    (_err_index x) (_error x) (_tree x) (_simplified_tree x) (_num x)
    (_score x) (Some v) (dict_text x) (dict_terminal_nodes x).

Definition set_dict_text (v : string) (x : Sentence) : Sentence :=
  mkSentence (sent_cls x) (_job x) (_s x) (_len x) (dict_len x)
    (_err_index x) (_error x) (_tree x) (_simplified_tree x) (_num x)
    (_score x) (_terminals x) (Some v) (dict_terminal_nodes x).

Definition set_dict_terminal_nodes (v : list SimpleTree) (x : Sentence)
    : Sentence :=
  mkSentence (sent_cls x) (_job x) (_s x) (_len x) (dict_len x)
    (_err_index x) (_error x) (_tree x) (_simplified_tree x) (_num x)
    (_score x) (_terminals x) (dict_text x) (Some v).

(** Methods that only touch the sentence run over the sentence; [parse]
    runs over the world and the sentence together. *)
Definition MS (A : Type) : Type := SE Sentence A.
Definition MWS (A : Type) : Type := SE (World * Sentence) A.

(** [self.name] *)
Definition self_attr {A} (name : string) (slot : Sentence -> attr A) : MS A :=
  fun self => getattr name (slot self) self.

(** Run a method of the sentence inside [MWS]. *)
Definition on_self {A} (m : MS A) : MWS A :=
  fun ws => let '(r, s') := m (snd ws) in (r, (fst ws, s')).

(** Run a method of the job inside [MWS]. *)
Definition on_world {A} (m : M A) : MWS A :=
  fun ws => let '(r, w') := m (fst ws) in (r, (w', snd ws)).

(** [try: m  except ParseError as e: h e] *)
Definition except_ParseError {S A} (m : SE S A)
    (h : string -> option Z -> SE S A) : SE S A :=
  fun w =>
    match m w with
    | (Raise (ParseError msg ix), w') => h msg ix w'
    | r => r
    end.

(** [_Sentence.__len__] *)
Definition Sentence_len : MS Z := self_attr "_len" _len.

(** [_Sentence.parse] *)
Definition Sentence_parse : MWS bool :=
  n0 <- on_self (self_attr "_num" _num) ;;
  match n0 with
  | Some n =>
      (* Already parsed *)
      ret (0 <? n)
  | None =>
      jr <- on_self (self_attr "_job" _job) ;;
      r <- except_ParseError
             (match jr with
              | None => raise (AttributeError "parse")
              | Some TheJob =>
                  s <- on_self (self_attr "_s" _s) ;;
                  on_world (Job_parse s)
              end)
             (fun msg ix =>
                e <- match ix with
                     | None =>
                         l <- on_self (self_attr "_len" _len) ;;
                         ret (l - 1)
                     | Some i => ret i
                     end ;;
                on_self (modify (set_err_index (Some e))) ;;;
                on_self (modify (set_error (Some (ParseError msg ix)))) ;;;
                ret (None, 0, 0)) ;;
      let '(tree, num, score) := r in
      on_self (modify (set_tree tree)) ;;;
      match tree with
      | None => on_self (modify (set_simplified_tree None))
      | Some t =>
          s <- on_self (self_attr "_s" _s) ;;
          on_self (modify (set_simplified_tree (Some (from_deep_tree t s))))
      end ;;;
      on_self (modify (set_num (Some num))) ;;;
      on_self (modify (set_score (Some score))) ;;;
      ret (0 <? num)
  end.

(** The attributes [_Sentence.__init__] assigns before it looks at the
    job's [parse_immediately]. *)
Definition new_sentence (cls : sentence_class) (s : TokenList) : Sentence :=
  {| sent_cls := cls;
     _job := Some (Some TheJob);
     _s := Some s;
     _len := Some (len s);
     dict_len := None;
     _err_index := Some None;
     _error := Some None;
     _tree := Some None;
     _simplified_tree := Some None;
     _num := Some None;
     _score := Some None;
     _terminals := Some None;
     dict_text := None;
     dict_terminal_nodes := None |}.

(** [_Sentence.__init__]; [cls] is the class being instantiated.  The
    object under construction is dropped when the constructor raises. *)
Definition Sentence_init (cls : sentence_class) (s : TokenList) : M Sentence :=
  fun w =>
    if negb (0 <? len s) then (Raise AssertionError, w)
    else
      let self := new_sentence cls s in
      if parse_immediately (job w)
      then
        match Sentence_parse (w, self) with
        | (Ret _, (w', self')) => (Ret self', w')
        | (Raise e, (w', _)) => (Raise e, w')
        end
      else (Ret self, w).

(** The plain read-only properties. *)
Definition Sentence_error : MS (option exn) := self_attr "_error" _error.
Definition Sentence_err_index : MS (option Z) :=
  self_attr "_err_index" _err_index.
Definition Sentence_tokens : MS TokenList := self_attr "_s" _s.
Definition Sentence_combinations : MS (option Z) := self_attr "_num" _num.
Definition Sentence_score : MS (option Z) := self_attr "_score" _score.
Definition Sentence_tree : MS (option SimpleTree) :=
  self_attr "_simplified_tree" _simplified_tree.
Definition Sentence_deep_tree : MS (option Forest) := self_attr "_tree" _tree.

(** [_Sentence.is_foreign] *)
Definition Sentence_is_foreign (min_icelandic_ratio : R) : MS bool :=
  toks <- Sentence_tokens ;;
  ret (tokens_are_foreign toks min_icelandic_ratio).

(** [_Sentence.flat_tree] *)
Definition Sentence_flat_tree : MS (option string) :=
  t <- Sentence_tree ;;
  ret (option_map node_flat t).

(** Modelled from the spec: the decorator [cache.cached_property] is not
    part of the sources.  The spec has every derived view computed at
    most once and cached thereafter: the value is stored in the instance
    dictionary under the property's name on first access and read from
    there afterwards. *)
Definition cached_property {A} (slot : Sentence -> attr A)
    (store : A -> Sentence -> Sentence) (compute : MS A) : MS A :=
  fun self =>
    match slot self with
    | Some v => (Ret v, self)
    | None => (v <- compute ;; modify (store v) ;;; ret v) self
    end.

(** [t.txt for t in toks if t.txt] *)
Fixpoint surface_forms (toks : TokenList) : list string :=
  match toks with
  | [] => []
  | t :: rest =>
      match txt t with
      | Some x => if truthy_txt (Some x) then x :: surface_forms rest
                  else surface_forms rest
      | None => surface_forms rest
      end
  end.

(** [_Sentence.text] *)
Definition Sentence_text : MS string :=
  cached_property dict_text set_dict_text
    (s <- self_attr "_s" _s ;;
     ret (join " " (surface_forms s))).

(** [_Sentence.terminal_nodes] *)
Definition Sentence_terminal_nodes : MS (list SimpleTree) :=
  cached_property dict_terminal_nodes set_dict_terminal_nodes
    (t <- Sentence_tree ;;
     match t with
     | None => ret []
     | Some tree => ret (filter is_terminal (descendants tree))
     end).

(** [Terminal(d.text, d.lemma, d.tcat, d.all_variants, d.index)] *)
Definition Terminal_of_node (d : SimpleTree) : Terminal :=
  mkTerminal (node_text d) (node_lemma d) (node_tcat d)
    (node_all_variants d) (node_index d).

(** [_Sentence.terminals] *)
Definition Sentence_terminals : MS (option (list Terminal)) :=
  t <- Sentence_tree ;;
  match t with
  | None =>
      (* Must parse the sentence first, without errors *)
      ret None
  | Some _ =>
      c <- self_attr "_terminals" _terminals ;;
      match c with
      | Some l =>
          (* Already calculated and cached *)
          ret (Some l)
      | None =>
          nodes <- Sentence_terminal_nodes ;;
          let l := map Terminal_of_node nodes in
          modify (set_terminals (Some l)) ;;;
          ret (Some l)
      end
  end.

(** [_Sentence.tidy_text] *)
Definition Sentence_tidy_text : MS string :=
  terminals <- Sentence_terminals ;;
  t <- match terminals with
       | None =>
           (* Not parsed (yet) *)
           Sentence_text
       | Some l => ret (join " " (map text l))
       end ;;
  ret (correct_spaces t).

(** [_Sentence.lemmas] *)
Definition Sentence_lemmas : MS (option (list string)) :=
  t <- Sentence_terminals ;;
  ret (option_map (map lemma) t).

(** [_Sentence.categories] *)
Definition Sentence_categories : MS (option (list string)) :=
  t <- Sentence_tree ;;
  match t with
  | None => ret None
  | Some _ =>
      nodes <- Sentence_terminal_nodes ;;
      ret (Some (map node_cat nodes))
  end.

(** [_Sentence.lemmas_and_cats] *)
Definition Sentence_lemmas_and_cats : MS (option (list (string * string))) :=
  t <- Sentence_tree ;;
  match t with
  | None => ret None
  | Some _ =>
      nodes <- Sentence_terminal_nodes ;;
      ret (Some (map (fun d => (node_lemma d, node_lemma_cat d)) nodes))
  end.

(** [_Sentence.ifd_tags] *)
Definition Sentence_ifd_tags : MS (option (list string)) :=
  t <- Sentence_tree ;;
  match t with
  | None => ret None
  | Some tree => ret (Some (flat_map node_ifd_tags (descendants tree)))
  end.

(** ** Serialisation *)

(** A serialised token: [tuple(tok)]. *)
Definition TokRecord : Type := (Z * option string * Val)%type.

(** [Greynir._dump_token] *)
Definition _dump_token (tok : Tok) : TokRecord := (kind tok, txt tok, val tok).

(** Modelled from the spec: [bintokenizer.load_token] is not part of the
    sources.  The spec has a round trip keep a token's kind, text and
    value, so kind and text are passed through; how the payload is
    rebuilt from its serialised form is left to the collaborator
    [load_val]. *)
Definition load_token (t : TokRecord) : TokRecord :=
  let '(k, x, v) := t in (k, x, load_val k x v).

(** [Greynir._load_token] *)
Definition _load_token (t : TokRecord) : Tok :=
  let '(k, x, v) := load_token t in mkTok k x v.

(** The dictionary returned by [dump]. *)
Record Dump : Type := mkDump {
  dump_tokens : list TokRecord;
  dump_tree : option Head
}.

(** [_Sentence.dump] *)
Definition Sentence_dump : MS Dump :=
  s <- self_attr "_s" _s ;;
  t <- Sentence_tree ;;
  ret {| dump_tokens := map _dump_token s;
         dump_tree := option_map _head t |}.

(** [_Sentence.load]: the instance dictionary is replaced by one with
    exactly the eight keys listed in the source. *)
Definition Sentence_load (cls : sentence_class) (tokens : list TokRecord)
    (tree : option Head) : Sentence :=
  {| sent_cls := cls;
     _s := Some (map _load_token tokens);
     dict_len := Some (len tokens);
     _simplified_tree :=
       Some (option_map (fun t => SimpleTree_init [[t]]) tree);
     _terminals := Some None;
     _job := Some None;
     _err_index := Some None;
     _error := Some None;
     _score := Some None;
     (* keys the dictionary does not have *)
     _len := None;
     _tree := None;
     _num := None;
     dict_text := None;
     dict_terminal_nodes := None |}.

(** [load] applied to the two entries of a [dump]. *)
Definition Sentence_load_dump (cls : sentence_class) (d : Dump) : Sentence :=
  Sentence_load cls (dump_tokens d) (dump_tree d).

(** ** Paragraphs and the iteration of a job *)

(** [_Job._create_sentence], dispatched on the class of the job:
    [_Job] goes through [Greynir.create_sentence] and builds a
    [_Sentence], [_Job_NP] builds a [_NounPhrase]. *)
Definition Job_create_sentence (s : TokenList) : M Sentence :=
  j <- gets job ;;
  match job_cls j with
  | Class_Job => Sentence_init Class_Sentence s
  | Class_Job_NP => Sentence_init Class_NounPhrase s
  end.

(** [_Paragraph]: [_p] holds the (index, sentence) pairs of the
    paragraph; [_p_lazy] tells whether [_p] is still the tokenizer's
    generator (no progress function) or a list built beforehand. *)
Record Paragraph : Type := mkParagraph {
  p_job : job_ref;
  _p_lazy : bool;
  _p : list (Z * TokenList)
}.

(** One event per sentence pulled out of the segmentation. *)
Definition segment_events (l : list (Z * TokenList)) : list event :=
  map (fun '(ix, sent) => EvSegment ix sent) l.

Definition emit_all (l : list event) : M unit :=
  modify (fun w => mkWorld (job w) (log w ++ l)%list (ticks w)).

(** [sum(len(p) for p in pg_list)] *)
Definition count_sentences (pg_list : list (list (Z * TokenList))) : Z :=
  fold_right (fun p acc => len p + acc) 0 pg_list.

(** [_Job.paragraphs], up to its [for] loop: what the generator does
    when it is first advanced. *)
Definition Job_paragraphs : M (list Paragraph) :=
  j <- gets job ;;
  match _progress_func j with
  | Some _ =>
      (* pre-count the sentences: the segmentation is exhausted here *)
      let pg_list := paragraphs (_tokens j) in
      emit_all (segment_events (List.concat pg_list)) ;;;
      modify_job (set_cnt_sent (count_sentences pg_list + 1)) ;;;
      j' <- gets job ;;
      call_progress (1 / IZR (_cnt_sent j'))%R ;;;
      ret (map (mkParagraph TheJob false) pg_list)
  | None =>
      (* No progress function: use generators throughout *)
      ret (map (mkParagraph TheJob true) (paragraphs (_tokens j)))
  end.

(** [for sent in p.sentences(): body(sent)], collecting the results of
    the loop body. *)
Fixpoint sentences_loop {A} (lazy : bool) (p : list (Z * TokenList))
    (body : Sentence -> M A) : M (list A) :=
  match p with
  | [] => ret []
  | (ix, sent) :: rest =>
      (if lazy then emit (EvSegment ix sent) else ret tt) ;;;
      s <- Job_create_sentence sent ;;
      emit (EvSentence sent) ;;;
      a <- body s ;;
      r <- sentences_loop lazy rest body ;;
      ret (a :: r)
  end.

(** [_Paragraph.sentences], driven by a loop body. *)
Definition Paragraph_sentences {A} (p : Paragraph) (body : Sentence -> M A)
    : M (list A) :=
  sentences_loop (_p_lazy p) (_p p) body.

Fixpoint paragraphs_loop {A} (ps : list Paragraph) (body : Sentence -> M A)
    : M (list A) :=
  match ps with
  | [] => ret []
  | p :: rest =>
      r1 <- Paragraph_sentences p body ;;
      r2 <- paragraphs_loop rest body ;;
      ret (r1 ++ r2)%list
  end.

(** [_Job.sentences] / [_Job.__iter__], driven to exhaustion:
    [for sent in job: body(sent)]. *)
Definition Job_sentences {A} (body : Sentence -> M A) : M (list A) :=
  ps <- Job_paragraphs ;;
  paragraphs_loop ps body.

(** [next(iter(job))], with [None] for [StopIteration]. *)
Fixpoint first_sentence (ps : list Paragraph) : M (option Sentence) :=
  match ps with
  | [] => ret None
  | p :: rest =>
      match _p p with
      | [] => first_sentence rest
      | (ix, sent) :: _ =>
          (if _p_lazy p then emit (EvSegment ix sent) else ret tt) ;;;
          s <- Job_create_sentence sent ;;
          emit (EvSentence sent) ;;;
          ret (Some s)
      end
  end.

Definition Job_next : M (option Sentence) :=
  ps <- Job_paragraphs ;;
  first_sentence ps.

(** The loop body [sent.parse()] of the usage shown in the docstring of
    [Greynir]: [for sent in job: sent.parse()]. *)
Definition parse_it (s : Sentence) : M (bool * Sentence) :=
  fun w =>
    match Sentence_parse (w, s) with
    | (Ret b, (w', s')) => (Ret (b, s'), w')
    | (Raise e, (w', _)) => (Raise e, w')
    end.

(** ** The noun-phrase job *)

(** Python truth value of a string. *)
Definition truthy (x : string) : bool := negb (x =? "")%string.

(** [_Job_NP.__init__] *)
Definition Job_NP_init (greynir : Greynir) (tokens : list Tok)
    (force_number : option string) : outcome Job :=
  let make (root : string) :=
    Ret (Job_init Class_Job_NP greynir tokens true (Some root) None
           DEFAULT_MAX_SENT_TOKENS) in
  match force_number with
  | None => make "Nl"
  | Some fn =>
      if truthy fn then
        if (fn =? "et")%string || (fn =? "singular")%string then
          (* We only want singular parses *)
          make "Nl_et"
        else if (fn =? "ft")%string || (fn =? "plural")%string then
          (* We only want plural parses *)
          make "Nl_ft"
        else Raise (ValueError "Unexpected value of force_number")
      else make "Nl"
  end.

(** ** The facade *)

(** Construct a job and run [m] on it from an empty trace; nothing
    happens when the constructor raises. *)
Definition run_job {A} (j : outcome Job) (m : M A)
    : outcome A * list event :=
  match j with
  | Raise e => (Raise e, [])
  | Ret j0 => let '(r, w) := m (new_world j0) in (r, log w)
  end.

(** [Greynir.submit], from the tokens on. *)
Definition Greynir_submit (g : Greynir) (tokens : list Tok) (parse : bool)
    (progress_func : option callback) (max_sent_tokens : Z) : Job :=
  Job_init Class_Job g tokens parse None progress_func max_sent_tokens.




(** [Greynir.parse_noun_phrase], from the tokens on. *)
Definition Greynir_parse_noun_phrase (g : Greynir) (tokens : list Tok)
    (force_number : option string) : outcome (option Sentence) * list event :=
  run_job (Job_NP_init g tokens force_number) Job_next.

(** ** Reading a trace *)


(** The invocations of the grammar engine. *)
Fixpoint parser_calls (l : list event) : list (TokenList * option string) :=
  match l with
  | [] => []
  | EvParserGo t r :: rest => (t, r) :: parser_calls rest
  | _ :: rest => parser_calls rest
  end.

Definition is_segment (e : event) : bool :=
  match e with
  | EvSegment _ _ => true
  | _ => false
  end.

(** ** Histories of a job *)

(** One call of [_add_sentence]: the tokens, the number of combinations
    and the two durations. *)
Definition stat_entry : Type := (TokenList * Z * R * R)%type.

Definition entry_tokens (e : stat_entry) : TokenList :=
  let '(s, _, _, _) := e in s.

Definition entry_num (e : stat_entry) : Z :=
  let '(_, n, _, _) := e in n.

(** The world after the sentences of a history were added, one call of
    [_add_sentence] each, whatever the outcome of each call. *)
Definition add_all (h : list stat_entry) (w : World) : World :=
  fold_left
    (fun w e =>
       let '(s, n, pt, rt) := e in snd (Job_add_sentence s n pt rt w))
    h w.


(** ** Conditions on a job *)

(** The two assertions that guard the progress call of [_add_sentence]
    will hold for the next sentence: there is no progress function, or
    the sentences were pre-counted and one more fits in the count. *)
Definition progress_ready (j : Job) : Prop :=
  match _progress_func j with
  | None => True
  | Some _ => 0 < _cnt_sent j /\ _num_sent j + 2 <= _cnt_sent j
  end.

(** The progress call made at the end of [_add_sentence], if any, by a
    job that was in state [j] before the call. *)
Definition progress_event (j : Job) : list event :=
  match _progress_func j with
  | None => []
  | Some _ => [EvProgress (IZR (_num_sent j + 2) / IZR (_cnt_sent j))%R]
  end.

(** The attributes of a job that processing a sentence never assigns. *)
Definition same_config (j j' : Job) : Prop :=
  job_cls j' = job_cls j /\ _r j' = _r j /\ _tokens j' = _tokens j /\
  _parse j' = _parse j /\ _cnt_sent j' = _cnt_sent j /\
  _root j' = _root j /\ _progress_func j' = _progress_func j /\
  _max_sent_tokens j' = _max_sent_tokens j.

(** Events of the two engines only. *)
Definition engine_event (e : event) : Prop :=
  match e with
  | EvParserGo _ _ | EvReduce _ => True
  | _ => False
  end.

(** The token sequence is stopped by the length threshold of the job. *)
Definition too_long (j : Job) (tokens : TokenList) : bool :=
  negb (_max_sent_tokens j =? 0) && (_max_sent_tokens j <? len tokens).

(** The token sequence is stopped by the foreign-sentence filter. *)
Definition filtered_as_foreign (j : Job) (tokens : TokenList) : bool :=
  negb (parse_foreign_sentences j)
  && tokens_are_foreign tokens ICELANDIC_RATIO.

(** The message of the length-exceeded error. *)
Definition length_message (j : Job) : string :=
  "Sentence is longer than " ++ str_of_int (_max_sent_tokens j) ++ " tokens".

(** ** States of a sentence *)

(** The sentence holds [tokens], belongs to the job of the world and has
    not been parsed yet. *)
Definition unparsed (self : Sentence) (tokens : TokenList) : Prop :=
  _num self = Some None /\ _job self = Some (Some TheJob) /\
  _s self = Some tokens /\ _len self = Some (len tokens).

(** What [parse] assigns when [_Job.parse] returned. *)
Definition after_parse (tokens : TokenList) (tree : option Forest)
    (num score : Z) (self : Sentence) : Sentence :=
  set_score (Some score)
    (set_num (Some num)
       (set_simplified_tree
          (option_map (fun t => from_deep_tree t tokens) tree)
          (set_tree tree self))).

(** What [parse] assigns when [_Job.parse] raised a [ParseError]. *)
Definition after_error (tokens : TokenList) (msg : string) (ix : option Z)
    (self : Sentence) : Sentence :=
  after_parse tokens None 0 0
    (set_error (Some (ParseError msg ix))
       (set_err_index
          (Some match ix with
                | None => len tokens - 1
                | Some i => i
                end)
          self)).

(** The states a sentence made by the constructor for [tokens] can be
    in: as constructed, and after any call of [parse] or of one of the
    properties that write to the instance dictionary. *)
Inductive sentence_state (tokens : TokenList) : Sentence -> Prop :=
| state_new (cls : sentence_class) :
    sentence_state tokens (new_sentence cls tokens)
| state_parse (w w' : World) (self self' : Sentence) (r : outcome bool) :
    sentence_state tokens self ->
    Sentence_parse (w, self) = (r, (w', self')) ->
    sentence_state tokens self'
| state_text (self self' : Sentence) (r : outcome string) :
    sentence_state tokens self ->
    Sentence_text self = (r, self') ->
    sentence_state tokens self'
| state_terminal_nodes (self self' : Sentence)
    (r : outcome (list SimpleTree)) :
    sentence_state tokens self ->
    Sentence_terminal_nodes self = (r, self') ->
    sentence_state tokens self'
| state_terminals (self self' : Sentence)
    (r : outcome (option (list Terminal))) :
    sentence_state tokens self ->
    Sentence_terminals self = (r, self') ->
    sentence_state tokens self'.

(** The sentence was parsed successfully. *)
Definition parsed_successfully (self : Sentence) : Prop :=
  exists n, _num self = Some (Some n) /\ 0 < n.

(** The terminal nodes of a simplified tree. *)
Definition nodes_of (t : SimpleTree) : list SimpleTree :=
  filter is_terminal (descendants t).

(** The cached [terminal_nodes], if any, are those of the tree the
    sentence has now. *)
Definition nodes_up_to_date (self : Sentence) : Prop :=
  forall nodes t,
    dict_terminal_nodes self = Some nodes ->
    _simplified_tree self = Some (Some t) ->
    nodes = nodes_of t.

(** What holds of the instance dictionary in every state of a sentence
    made for [tokens]. *)
Record sentence_inv (tokens : TokenList) (self : Sentence) : Prop := {
  inv_s : _s self = Some tokens;
  inv_len : _len self = Some (len tokens);
  inv_job : _job self = Some (Some TheJob);
  inv_tree :
    exists ot,
      _tree self = Some ot /\
      _simplified_tree self =
        Some (option_map (fun f => from_deep_tree f tokens) ot);
  inv_num :
    (_num self = Some None /\ _tree self = Some None /\
     _error self = Some None) \/
    (exists n, _num self = Some (Some n) /\
               (0 < n -> exists f, _tree self = Some (Some f)));
  inv_error :
    exists oe, _error self = Some oe /\
               (oe <> None -> _tree self = Some None);
  inv_terminals :
    _terminals self = Some None \/
    (exists nodes t,
       dict_terminal_nodes self = Some nodes /\
       _simplified_tree self = Some (Some t) /\
       _terminals self = Some (Some (map Terminal_of_node nodes)));
  inv_nodes :
    dict_terminal_nodes self = None \/
    dict_terminal_nodes self = Some [] \/
    (exists t, _simplified_tree self = Some (Some t) /\
               dict_terminal_nodes self = Some (nodes_of t));
  inv_text :
    dict_text self = None \/
    dict_text self = Some (join " " (surface_forms tokens))
}.


(** One sentence handed out by the iteration of a job and parsed by the
    consumer: the body of [for sent in job: sent.parse()]. *)
Definition process_sentence (sent : TokenList) : M (bool * Sentence) :=
  s <- Job_create_sentence sent ;;
  emit (EvSentence sent) ;;;
  parse_it s.

(** The job [_Job_NP.__init__] builds for a grammar root. *)
Definition np_job (g : Greynir) (tokens : list Tok) (root : string) : Job :=
  Job_init Class_Job_NP g tokens true (Some root) None DEFAULT_MAX_SENT_TOKENS.


(** The world after one reading of the clock. *)
Definition tick (w : World) : World :=
  mkWorld (job w) (log w) (S (ticks w)).

(** What [_Job.parse] hands back for what its [try] body left. *)
Definition result_of_body (r : outcome parse_locals)
    : outcome (option Forest * Z * Z) :=
  match r with
  | Ret (forest, num, score, _) => Ret (forest, num, score)
  | Raise e => Raise e
  end.

(** The value of the local [num] when the [finally] clause runs. *)
Definition num_of_body (r : outcome parse_locals) : Z :=
  match r with
  | Ret (_, num, _, _) => num
  | Raise _ => 0
  end.

End Model.

(** ** A small concrete set of collaborators

    Used to run the model on examples.  A token's payload is empty; a
    forest is represented by its number of derivations, which the toy
    grammar engine takes to be the number of tokens; a sentence whose
    first token is ["hello"] is foreign, one whose first token is ["?"]
    has no derivation; the segmentation puts every token in a sentence
    of its own; a simplified tree is headed by the list of the surface
    forms of its tokens, each of which is a terminal node. *)

Definition first_txt (toks : list (Tok_ unit)) : option string :=
  match toks with
  | [] => None
  | t :: _ => txt t
  end.

Definition txt_is (x : string) (o : option string) : bool :=
  match o with
  | Some y => (x =? y)%string
  | None => false
  end.

(** A spacing corrector that removes the space in front of a comma. *)
Fixpoint demo_correct_spaces (x : string) : string :=
  match x with
  | String " "%char (String ","%char r) =>
      String ","%char (demo_correct_spaces r)
  | String c r => String c (demo_correct_spaces r)
  | EmptyString => EmptyString
  end.

Fixpoint demo_forms (toks : list (Tok_ unit)) : list string :=
  match toks with
  | [] => []
  | t :: rest =>
      match txt t with
      | Some x => x :: demo_forms rest
      | None => demo_forms rest
      end
  end.

Definition demo : Collaborators :=
  {| Val := unit;
     Forest := Z;
     Head := list string;
     empty_head := [];
     time_time := INR;
     ICELANDIC_RATIO := (1 / 2)%R;
     tokens_are_foreign := fun toks _ => txt_is "hello" (first_txt toks);
     parser_go := fun toks _ =>
       if txt_is "?" (first_txt toks) then inr ("No parse available", None)
       else inl (Some (len toks));
     num_combinations := fun f => f;
     go_with_score := fun f => (1, 10);
     paragraphs := fun toks => [map (fun t => (0, [t])) toks];
     correct_spaces := demo_correct_spaces;
     load_val := fun _ _ v => v;
     from_deep_tree := fun _ toks => mkSimpleTree (demo_forms toks);
     descendants := fun t => map (fun x => mkSimpleTree [x]) (_head t);
     is_terminal := fun _ => true;
     node_text := fun t => join " " (_head t);
     node_lemma := fun t => join " " (_head t);
     node_tcat := fun _ => "no";
     node_cat := fun _ => "kk";
     node_lemma_cat := fun _ => "kk";
     node_all_variants := fun _ => [];
     node_index := fun _ => 0;
     node_ifd_tags := fun _ => [];
     node_flat := fun t => join " " (_head t) |}.

(** A word token. *)
Definition word (x : string) : @Tok demo := mkTok 6 (Some x) tt.

(** * Properties *)

Section Properties.

Context {X : Collaborators}.

(** ** Statistics: the ambiguity factor *)




Lemma len_pos_iff {A} (s : list A) : 0 < len s <-> s <> [].
Proof.
  unfold len. destruct s; simpl; split; intros H; try lia; congruence.
Qed.



Lemma add_all_cons (e : stat_entry) (h : list stat_entry) (w : World) :
  add_all (e :: h) w =
  add_all h (let '(s, n, pt, rt) := e in snd (Job_add_sentence s n pt rt w)).
Proof. destruct e as [[[s n] pt] rt]. reflexivity. Qed.



(** ** One processed sentence *)

Ltac run_monad :=
  unfold bind, ret, raise, gets, modify_job, modify, call_progress, emit,
    emit_all, assert, now; simpl.

(** [_add_sentence] when its assertions hold and it does not divide by
    zero: the call returns, one sentence more has been seen, and the
    progress function, if any, has been called once. *)
Lemma add_sentence_spec (s : TokenList) (n : Z) (pt rt : R) (w : World) :
  (0 < n -> s <> []) ->
  progress_ready (job w) ->
  exists j',
    Job_add_sentence s n pt rt w =
      (Ret tt, mkWorld j' (log w ++ progress_event (job w)) (ticks w)) /\
    same_config (job w) j' /\
    _num_sent j' = _num_sent (job w) + 1 /\
    _num_tokens j' = _num_tokens (job w) + len s /\
    _num_parsed j' = _num_parsed (job w) + (if 0 <? n then 1 else 0) /\
    _num_combinations j' =
      _num_combinations (job w) + (if 0 <? n then n else 0).
Proof.
  intros Hne Hready. destruct w as [j l t]. simpl in *.
  unfold progress_ready in Hready. unfold progress_event.
  unfold Job_add_sentence. run_monad.
  assert (Hlen : (0 <? n) = true -> (len s =? 0) = false).
  { intros Hn. apply Z.ltb_lt in Hn. apply Z.eqb_neq.
    apply Hne, len_pos_iff in Hn. lia. }
  destruct (0 <? n) eqn:Hn; simpl.
  - rewrite (Hlen eq_refl). simpl.
    destruct (_progress_func j) eqn:Hpf; simpl.
    + destruct Hready as [Hc Hs].
      apply Z.ltb_lt in Hc. rewrite Hc. simpl.
      assert (Hle : (_num_sent j + 1 + 1 <=? _cnt_sent j) = true)
        by (apply Z.leb_le; lia).
      rewrite Hle. simpl.
      replace (_num_sent j + 1 + 1) with (_num_sent j + 2) by lia.
      eexists. split; [reflexivity |]. unfold same_config. simpl.
      rewrite Hpf. repeat split; lia.
    + rewrite app_nil_r.
      eexists. split; [reflexivity |]. unfold same_config. simpl.
      rewrite Hpf. repeat split; lia.
  - destruct (_progress_func j) eqn:Hpf; simpl.
    + destruct Hready as [Hc Hs].
      apply Z.ltb_lt in Hc. rewrite Hc. simpl.
      assert (Hle : (_num_sent j + 1 + 1 <=? _cnt_sent j) = true)
        by (apply Z.leb_le; lia).
      rewrite Hle. simpl.
      replace (_num_sent j + 1 + 1) with (_num_sent j + 2) by lia.
      eexists. split; [reflexivity |]. unfold same_config. simpl.
      rewrite Hpf. repeat split; lia.
    + rewrite app_nil_r.
      eexists. split; [reflexivity |]. unfold same_config. simpl.
      rewrite Hpf. repeat split; lia.
Qed.

Lemma Job_parse_body_too_long (tokens : TokenList) (t0 : R) (w : World) :
  too_long (job w) tokens = true ->
  Job_parse_body tokens t0 w =
    (Raise (ParseError (length_message (job w))
              (Some (_max_sent_tokens (job w)))), w).
Proof.
  unfold too_long, Job_parse_body. run_monad. intros ->. reflexivity.
Qed.

Lemma Job_parse_body_foreign (tokens : TokenList) (t0 : R) (w : World) :
  too_long (job w) tokens = false ->
  filtered_as_foreign (job w) tokens = true ->
  Job_parse_body tokens t0 w =
    (Raise (ParseError "Sentence is probably not in Icelandic" (Some 0)), w).
Proof.
  unfold too_long, filtered_as_foreign, Job_parse_body. run_monad.
  intros -> ->. reflexivity.
Qed.

(** Past the two filters the grammar engine is invoked, once. *)
Lemma Job_parse_body_engine (tokens : TokenList) (t0 : R) (w : World) :
  too_long (job w) tokens = false ->
  filtered_as_foreign (job w) tokens = false ->
  exists r evs k,
    Job_parse_body tokens t0 w =
      (r, mkWorld (job w)
            (log w ++ EvParserGo tokens (_root (job w)) :: evs) k) /\
    Forall engine_event evs /\ parser_calls evs = [] /\
    (forall e, r = Raise e -> exists msg ix, e = ParseError msg ix).
Proof.
  unfold too_long, filtered_as_foreign, Job_parse_body. run_monad.
  intros -> ->. destruct w as [j l t]. simpl.
  destruct (parser_go tokens (_root j)) as [[f |] | [msg ix]]; simpl.
  - destruct (1 <? num_combinations f).
    + destruct (go_with_score f) as [f' score]. simpl.
      exists (Ret (Some f', num_combinations f, score, time_time t)),
        [EvReduce f], (S t).
      rewrite <- app_assoc. simpl.
      repeat split; [repeat constructor | discriminate].
    + exists (Ret (Some f, num_combinations f, 0, time_time t)), [], (S t).
      repeat split; [constructor | discriminate].
  - exists (Ret (None, 0, 0, time_time t)), [], (S t).
    repeat split; [constructor | discriminate].
  - exists (Raise (ParseError msg ix)), [], t.
    repeat split; [constructor |].
    intros e [= <-]. eauto.
Qed.

(** The [finally] clause of [_Job.parse], after a body that left the job
    untouched. *)
Lemma Job_parse_finally (tokens : TokenList) (w w1 : World)
    (r : outcome parse_locals) :
  Job_parse_body tokens (time_time (ticks w)) (tick w) = (r, w1) ->
  job w1 = job w ->
  (0 < num_of_body r -> tokens <> []) ->
  progress_ready (job w) ->
  exists j',
    Job_parse tokens w =
      (result_of_body r,
       mkWorld j' (log w1 ++ progress_event (job w)) (S (ticks w1))) /\
    same_config (job w) j' /\
    _num_sent j' = _num_sent (job w) + 1 /\
    _num_tokens j' = _num_tokens (job w) + len tokens /\
    _num_parsed j' =
      _num_parsed (job w) + (if 0 <? num_of_body r then 1 else 0) /\
    _num_combinations j' =
      _num_combinations (job w)
      + (if 0 <? num_of_body r then num_of_body r else 0).
Proof.
  intros Hbody Hjob Hne Hready.
  unfold Job_parse. unfold now at 1. cbv zeta iota beta.
  change (mkWorld (job w) (log w) (S (ticks w))) with (tick w).
  rewrite Hbody.
  set (t0 := time_time (ticks w)).
  set (t1 := match r with
             | Ret (_, _, _, t1) => t1
             | Raise _ => t0
             end).
  assert (Hloc : (match r with
                  | Ret (_, num, _, t1) => (num, t1)
                  | Raise _ => (0, t0)
                  end) = (num_of_body r, t1)).
  { unfold num_of_body, t1. destruct r as [[[[f n] sc] t] | e]; reflexivity. }
  rewrite Hloc.
  unfold bind at 1. unfold now at 1.
  destruct (add_sentence_spec tokens (num_of_body r)
              (time_time (ticks w1) - t0) (time_time (ticks w1) - t1)
              (tick w1) Hne) as (j' & Hadd & Hcfg & Hcnt).
  { simpl. rewrite Hjob. exact Hready. }
  simpl in Hadd, Hcfg, Hcnt. rewrite Hjob in Hadd, Hcfg, Hcnt.
  unfold tick in Hadd. rewrite Hadd.
  exists j'. split; [| split; [exact Hcfg | exact Hcnt]].
  unfold result_of_body.
  destruct r as [[[[f n] sc] t] | e]; reflexivity.
Qed.

Lemma parser_calls_app (a b : list event) :
  parser_calls (a ++ b) = (parser_calls a ++ parser_calls b)%list.
Proof.
  induction a as [| e a IH]; simpl; [reflexivity |].
  destruct e; simpl; rewrite IH; reflexivity.
Qed.


(** Whatever its outcome, [_add_sentence] adds at most one call of the
    progress function to the trace, and nothing else. *)
Lemma add_sentence_log (s : TokenList) (n : Z) (pt rt : R) (w : World) :
  exists evs,
    log (snd (Job_add_sentence s n pt rt w)) = (log w ++ evs)%list /\
    (evs = [] \/ exists v, evs = [EvProgress v]).
Proof.
  unfold Job_add_sentence. run_monad. destruct w as [j l t]. simpl.
  destruct (0 <? n); simpl.
  - destruct (len s =? 0); simpl.
    { exists []. rewrite app_nil_r. auto. }
    destruct (_progress_func j); simpl.
    + destruct (0 <? _cnt_sent j); simpl.
      * destruct (_num_sent j + 1 + 1 <=? _cnt_sent j); simpl.
        -- eexists. split; [reflexivity |]. right. eauto.
        -- exists []. rewrite app_nil_r. auto.
      * exists []. rewrite app_nil_r. auto.
    + exists []. rewrite app_nil_r. auto.
  - destruct (_progress_func j); simpl.
    + destruct (0 <? _cnt_sent j); simpl.
      * destruct (_num_sent j + 1 + 1 <=? _cnt_sent j); simpl.
        -- eexists. split; [reflexivity |]. right. eauto.
        -- exists []. rewrite app_nil_r. auto.
      * exists []. rewrite app_nil_r. auto.
    + exists []. rewrite app_nil_r. auto.
Qed.

(** The world [_Job.parse] leaves is the one its [finally] clause
    leaves: the job changes by exactly one call of [_add_sentence]. *)
Lemma Job_parse_world (tokens : TokenList) (w w1 : World)
    (r : outcome parse_locals) :
  Job_parse_body tokens (time_time (ticks w)) (tick w) = (r, w1) ->
  exists pt rt,
    snd (Job_parse tokens w) =
    snd (Job_add_sentence tokens (num_of_body r) pt rt (tick w1)).
Proof.
  intros Hbody. unfold Job_parse. unfold now at 1. cbv zeta iota beta.
  change (mkWorld (job w) (log w) (S (ticks w))) with (tick w).
  rewrite Hbody.
  destruct r as [[[[f n] sc] t1] | e]; simpl;
    unfold bind at 1; unfold now at 1; fold (tick w1);
    match goal with
    | |- context [Job_add_sentence ?s ?n ?pt ?rt ?w0] =>
        exists pt, rt; destruct (Job_add_sentence s n pt rt w0) as [[u | e'] w2]
    end; reflexivity.
Qed.

(** The invocations of the grammar engine made by one [_Job.parse] are
    those made by the body of its [try]. *)
Lemma Job_parse_parser_calls (tokens : TokenList) (w w1 : World)
    (r : outcome parse_locals) :
  Job_parse_body tokens (time_time (ticks w)) (tick w) = (r, w1) ->
  parser_calls (log (snd (Job_parse tokens w))) = parser_calls (log w1).
Proof.
  intros Hbody.
  destruct (Job_parse_world tokens w w1 r Hbody) as (pt & rt & ->).
  destruct (add_sentence_log tokens (num_of_body r) pt rt (tick w1))
    as (evs & -> & Hevs).
  rewrite parser_calls_app. simpl.
  destruct Hevs as [-> | [v ->]]; simpl; apply app_nil_r.
Qed.

Lemma too_long_true (j : Job) (tokens : TokenList) :
  too_long j tokens = true <->
  _max_sent_tokens j <> 0 /\ _max_sent_tokens j < len tokens.
Proof.
  unfold too_long. rewrite andb_true_iff, negb_true_iff, Z.eqb_neq, Z.ltb_lt.
  reflexivity.
Qed.

(** C3 (as amended).  For a job whose threshold is not zero and a token
    sequence longer than the threshold, the grammar engine is not
    invoked, and [_Job.parse] raises the length-exceeded [ParseError]
    with the threshold as its token index whenever the assertions of the
    statistics update hold; with a threshold of zero a sequence of any
    length that the foreign-sentence filter lets through reaches the
    grammar engine. *)
Theorem length_threshold (w : World) (tokens : TokenList) :
  let j := job w in
  let w' := snd (Job_parse tokens w) in
  (_max_sent_tokens j <> 0 -> _max_sent_tokens j < len tokens ->
   parser_calls (log w') = parser_calls (log w) /\
   (progress_ready j ->
    fst (Job_parse tokens w) =
      Raise (ParseError
               ("Sentence is longer than " ++ str_of_int (_max_sent_tokens j)
                ++ " tokens")
               (Some (_max_sent_tokens j))))) /\
  (_max_sent_tokens j = 0 ->
   filtered_as_foreign j tokens = false ->
   parser_calls (log w') =
     (parser_calls (log w) ++ [(tokens, _root j)])%list).
Proof.
  cbv zeta. split.
  - intros Hnz Hlt.
    assert (Hlong : too_long (job (tick w)) tokens = true)
      by (apply too_long_true; auto).
    pose proof (Job_parse_body_too_long tokens (time_time (ticks w))
                  (tick w) Hlong) as Hbody.
    split.
    + rewrite (Job_parse_parser_calls _ _ _ _ Hbody). reflexivity.
    + intros Hready.
      destruct (Job_parse_finally tokens w (tick w) _ Hbody eq_refl)
        as (j' & Hparse & _); [simpl; lia | exact Hready |].
      rewrite Hparse. reflexivity.
  - intros Hz Hnf.
    assert (Hlong : too_long (job (tick w)) tokens = false).
    { unfold too_long. simpl. rewrite Hz. reflexivity. }
    destruct (Job_parse_body_engine tokens (time_time (ticks w)) (tick w)
                Hlong Hnf) as (r & evs & k & Hbody & _ & Hcalls & _).
    rewrite (Job_parse_parser_calls _ _ _ _ Hbody). simpl.
    rewrite parser_calls_app. simpl. rewrite Hcalls. reflexivity.
Qed.

(** ** Parsing a sentence *)

(** [parse] on a sentence that has not been parsed: one call of
    [_Job.parse], whose [ParseError] is recorded and whose other
    exceptions pass through. *)
Lemma Sentence_parse_unparsed (w : World) (self : Sentence)
    (tokens : TokenList) :
  unparsed self tokens ->
  Sentence_parse (w, self) =
    match Job_parse tokens w with
    | (Ret (tree, num, score), w') =>
        (Ret (0 <? num), (w', after_parse tokens tree num score self))
    | (Raise (ParseError msg ix), w') =>
        (Ret false, (w', after_error tokens msg ix self))
    | (Raise e, w') => (Raise e, (w', self))
    end.
Proof.
  intros (Hnum & Hjob & Hs & Hlen).
  assert (Hrun : forall r w', Job_parse tokens w = (r, w') ->
            Sentence_parse (w, self) =
            match r with
            | Ret (tree, num, score) =>
                (Ret (0 <? num), (w', after_parse tokens tree num score self))
            | Raise (ParseError msg ix) =>
                (Ret false, (w', after_error tokens msg ix self))
            | Raise e => (Raise e, (w', self))
            end).
  { intros r w' Hp.
    unfold Sentence_parse, except_ParseError, bind, on_self, on_world,
      self_attr, getattr, ret, raise, modify.
    cbn [fst snd]. rewrite Hnum. cbv beta iota. cbn [fst snd].
    rewrite Hjob. cbv beta iota. cbn [fst snd].
    rewrite Hs. cbv beta iota. cbn [fst snd]. rewrite Hp.
    destruct r as [[[tree num] score] | e].
    - destruct tree as [t |]; cbn; rewrite ?Hs; reflexivity.
    - destruct e; try reflexivity.
      destruct token_index as [i |]; cbn; rewrite ?Hlen; reflexivity. }
  destruct (Job_parse tokens w) as [r w'] eqn:Hp.
  apply Hrun. reflexivity.
Qed.

(** [parse] on a sentence that has been parsed: the cached verdict. *)
Lemma Sentence_parse_parsed (w : World) (self : Sentence) (n : Z) :
  _num self = Some (Some n) ->
  Sentence_parse (w, self) = (Ret (0 <? n), (w, self)).
Proof.
  intros Hnum.
  unfold Sentence_parse, bind, on_self, self_attr, getattr, ret.
  cbn [fst snd]. rewrite Hnum. reflexivity.
Qed.



(** C6 (as amended).  For a sentence that has not been parsed, whose
    tokens are classified as foreign while the job does not parse
    foreign sentences, that the length threshold does not stop, the
    assertions of the statistics update holding: [parse] returns
    [False], [err_index] is 0, the grammar engine is not invoked, and
    the sentence is counted in [num_sentences] but not in
    [num_parsed]. *)
Theorem foreign_filtering (w : World) (self : Sentence) (tokens : TokenList) :
  let j := job w in
  unparsed self tokens ->
  parse_foreign_sentences j = false ->
  tokens_are_foreign tokens ICELANDIC_RATIO = true ->
  ~ (_max_sent_tokens j <> 0 /\ _max_sent_tokens j < len tokens) ->
  progress_ready j ->
  exists w' self',
    Sentence_parse (w, self) = (Ret false, (w', self')) /\
    fst (Sentence_err_index self') = Ret (Some 0) /\
    parser_calls (log w') = parser_calls (log w) /\
    Job_num_sentences (job w') = Job_num_sentences j + 1 /\
    Job_num_parsed (job w') = Job_num_parsed j.
Proof.
  cbv zeta. intros Hun Hpf Hfor Hlen Hready.
  assert (Hlong : too_long (job (tick w)) tokens = false).
  { destruct (too_long (job (tick w)) tokens) eqn:E; [| reflexivity].
    apply too_long_true in E. contradiction. }
  assert (Hfilt : filtered_as_foreign (job (tick w)) tokens = true).
  { unfold filtered_as_foreign. simpl. rewrite Hpf, Hfor. reflexivity. }
  pose proof (Job_parse_body_foreign tokens (time_time (ticks w)) (tick w)
                Hlong Hfilt) as Hbody.
  destruct (Job_parse_finally tokens w (tick w) _ Hbody eq_refl)
    as (j' & Hparse & _ & Hsent & _ & Hparsed & _);
    [simpl; lia | exact Hready |].
  rewrite (Sentence_parse_unparsed w self tokens Hun), Hparse. simpl.
  do 2 eexists. split; [reflexivity |].
  split; [reflexivity |].
  split.
  - cbn [log tick]. rewrite parser_calls_app. unfold progress_event.
    destruct (_progress_func (job w)); simpl; apply app_nil_r.
  - unfold Job_num_sentences, Job_num_parsed. simpl.
    simpl in Hparsed. split; [exact Hsent | lia].
Qed.

(** ** The noun-phrase job *)

(** C7 (as amended).  A noun-phrase job is built with root ["Nl_et"]
    for the restriction ["et"] or ["singular"], with root ["Nl_ft"] for
    ["ft"] or ["plural"], and with root ["Nl"] for no restriction, which
    an empty string also counts as; any other restriction raises
    [ValueError] from the constructor, and nothing has been tokenized or
    parsed when it does.  Every noun-phrase job parses immediately. *)
Theorem noun_phrase_root (g : Greynir) (tokens : list Tok) :
  (forall fn, fn = "et"%string \/ fn = "singular"%string ->
     Job_NP_init g tokens (Some fn) = Ret (np_job g tokens "Nl_et")) /\
  (forall fn, fn = "ft"%string \/ fn = "plural"%string ->
     Job_NP_init g tokens (Some fn) = Ret (np_job g tokens "Nl_ft")) /\
  (forall ofn, ofn = None \/ ofn = Some ""%string ->
     Job_NP_init g tokens ofn = Ret (np_job g tokens "Nl")) /\
  (forall fn,
     ~ In fn [""; "et"; "singular"; "ft"; "plural"]%string ->
     Job_NP_init g tokens (Some fn) =
       Raise (ValueError "Unexpected value of force_number") /\
     Greynir_parse_noun_phrase g tokens (Some fn) =
       (Raise (ValueError "Unexpected value of force_number"), [])) /\
  (forall ofn j, Job_NP_init g tokens ofn = Ret j ->
     parse_immediately j = true).
Proof.
  repeat split.
  - intros fn [-> | ->]; reflexivity.
  - intros fn [-> | ->]; reflexivity.
  - intros ofn [-> | ->]; reflexivity.
  - unfold Job_NP_init, truthy.
    destruct (String.eqb_spec fn "") as [-> | _]; [simpl in H; tauto |].
    destruct (String.eqb_spec fn "et") as [-> | _]; [simpl in H; tauto |].
    destruct (String.eqb_spec fn "singular") as [-> | _];
      [simpl in H; tauto |].
    destruct (String.eqb_spec fn "ft") as [-> | _]; [simpl in H; tauto |].
    destruct (String.eqb_spec fn "plural") as [-> | _];
      [simpl in H; tauto |].
    reflexivity.
  - unfold Greynir_parse_noun_phrase, run_job, Job_NP_init, truthy.
    destruct (String.eqb_spec fn "") as [-> | _]; [simpl in H; tauto |].
    destruct (String.eqb_spec fn "et") as [-> | _]; [simpl in H; tauto |].
    destruct (String.eqb_spec fn "singular") as [-> | _];
      [simpl in H; tauto |].
    destruct (String.eqb_spec fn "ft") as [-> | _]; [simpl in H; tauto |].
    destruct (String.eqb_spec fn "plural") as [-> | _];
      [simpl in H; tauto |].
    reflexivity.
  - intros ofn j. unfold Job_NP_init.
    destruct ofn as [fn |]; [| intros [= <-]; reflexivity].
    destruct (truthy fn); [| intros [= <-]; reflexivity].
    destruct ((fn =? "et")%string || (fn =? "singular")%string);
      [intros [= <-]; reflexivity |].
    destruct ((fn =? "ft")%string || (fn =? "plural")%string);
      [intros [= <-]; reflexivity | discriminate].
Qed.

(** ** Construction and loading *)

(** C9 (as amended).  The constructor of a sentence checks the length
    of the token sequence at run time: for an empty sequence it raises
    [AssertionError] and leaves the world as it was, so nothing is
    parsed; a non-empty sequence passes the check, and a job that does
    not parse immediately gets the sentence back unparsed. *)
Theorem empty_sentence_asserted (cls : sentence_class) (w : World) :
  Sentence_init cls [] w = (Raise AssertionError, w) /\
  (forall t s,
     parse_immediately (job w) = false ->
     Sentence_init cls (t :: s) w = (Ret (new_sentence cls (t :: s)), w)).
Proof.
  split; [reflexivity |].
  intros t s Hlazy. unfold Sentence_init.
  assert (Hpos : (0 <? len (t :: s)) = true).
  { apply Z.ltb_lt, len_pos_iff. discriminate. }
  rewrite Hpos, Hlazy. reflexivity.
Qed.

(** C10.  The dictionary [load] gives a sentence holds the token count
    under ["len"]; it has no ["_len"] and no ["_num"], so that [len()],
    [combinations] and [parse()] raise [AttributeError] on a loaded
    sentence. *)
Theorem loaded_sentence_attribute_errors (cls : sentence_class)
    (tokens : list TokRecord) (tree : option Head) (w : World) :
  let s := Sentence_load cls tokens tree in
  dict_len s = Some (len tokens) /\ _len s = None /\ _num s = None /\
  Sentence_len s = (Raise (AttributeError "_len"), s) /\
  Sentence_combinations s = (Raise (AttributeError "_num"), s) /\
  Sentence_parse (w, s) = (Raise (AttributeError "_num"), (w, s)).
Proof.
  cbv zeta. repeat split; reflexivity.
Qed.

(** ** The states of a sentence *)

Lemma Job_parse_body_forest (tokens : TokenList) (t0 t1 : R) (w w1 : World)
    (tree : option Forest) (num score : Z) :
  Job_parse_body tokens t0 w = (Ret (tree, num, score, t1), w1) ->
  0 < num -> exists f, tree = Some f.
Proof.
  unfold Job_parse_body. run_monad.
  destruct (negb (_max_sent_tokens (job w) =? 0)
            && (_max_sent_tokens (job w) <? len tokens)); [discriminate |].
  destruct (negb (parse_foreign_sentences (job w))
            && tokens_are_foreign tokens ICELANDIC_RATIO); [discriminate |].
  destruct (parser_go tokens (_root (job w))) as [[f |] | [msg ix]];
    [| | discriminate].
  - destruct (1 <? num_combinations f).
    + destruct (go_with_score f) as [f' sc].
      intros [= <- <- <- <- <-] _. eauto.
    + intros [= <- <- <- <- <-] _. eauto.
  - intros [= <- <- <- <- <-] Hn. lia.
Qed.

(** A positive number of combinations comes with a forest. *)
Lemma Job_parse_forest (tokens : TokenList) (w w' : World)
    (tree : option Forest) (num score : Z) :
  Job_parse tokens w = (Ret (tree, num, score), w') ->
  0 < num -> exists f, tree = Some f.
Proof.
  unfold Job_parse. unfold now at 1. cbv zeta iota beta.
  destruct (Job_parse_body tokens (time_time (ticks w))
              (mkWorld (job w) (log w) (S (ticks w))))
    as [[[[[tr n] sc] t1] | e] w1] eqn:Hbody.
  - match goal with
    | |- context [bind ?m ?k w1] => destruct (bind m k w1) as [[u | e] w2]
    end; [| discriminate].
    intros [= <- <- <- <-]. eapply Job_parse_body_forest. exact Hbody.
  - match goal with
    | |- context [bind ?m ?k w1] => destruct (bind m k w1) as [[u | e'] w2]
    end; discriminate.
Qed.

Lemma sentence_inv_new (cls : sentence_class) (tokens : TokenList) :
  sentence_inv tokens (new_sentence cls tokens).
Proof.
  constructor; simpl; eauto.
Qed.

Lemma sentence_inv_parse (tokens : TokenList) (w w' : World)
    (self self' : Sentence) (r : outcome bool) :
  sentence_inv tokens self ->
  Sentence_parse (w, self) = (r, (w', self')) ->
  sentence_inv tokens self'.
Proof.
  intros I Hp.
  destruct (inv_num _ _ I) as [(Hnum & Htree & Herr) | (n & Hnum & _)].
  - assert (Hun : unparsed self tokens).
    { repeat split; [exact Hnum | apply (inv_job _ _ I) |
                     apply (inv_s _ _ I) | apply (inv_len _ _ I)]. }
    rewrite (Sentence_parse_unparsed w self tokens Hun) in Hp.
    assert (Hterm : _terminals self = Some None).
    { destruct (inv_terminals _ _ I) as [H | (nodes & t & _ & Ht & _)];
        [exact H |].
      destruct (inv_tree _ _ I) as (ot & Hot & Hst).
      rewrite Htree in Hot. injection Hot as <-. simpl in Hst. congruence. }
    assert (Hnodes : dict_terminal_nodes self = None \/
                     dict_terminal_nodes self = Some []).
    { destruct (inv_nodes _ _ I) as [H | [H | (t & Ht & _)]]; auto.
      destruct (inv_tree _ _ I) as (ot & Hot & Hst).
      rewrite Htree in Hot. injection Hot as <-. simpl in Hst. congruence. }
    destruct (Job_parse tokens w) as [[[[tree num] score] | e] w1] eqn:HJ.
    + injection Hp as <- <- <-.
      constructor; simpl; try apply I; eauto.
      * right. exists num. split; [reflexivity |].
        intros Hpos. destruct (Job_parse_forest _ _ _ _ _ _ HJ Hpos) as [f ->].
        eauto.
      * exists None. split; [exact Herr | congruence].
      * destruct Hnodes as [H | H]; auto.
    + destruct e; try (injection Hp as <- <- <-; exact I).
      injection Hp as <- <- <-.
      constructor; simpl; try apply I; eauto.
      * right. exists 0. split; [reflexivity | lia].
      * destruct Hnodes as [H | H]; auto.
  - rewrite (Sentence_parse_parsed w self n Hnum) in Hp.
    injection Hp as <- <- <-. exact I.
Qed.

Ltac run_self :=
  unfold cached_property, Sentence_tree, self_attr, getattr, bind, ret,
    raise, modify; cbn [fst snd].

(** [text]: the surface forms of the tokens joined with spaces; the
    first access stores it in the dictionary. *)
Lemma Sentence_text_spec (tokens : TokenList) (self : Sentence) :
  sentence_inv tokens self ->
  exists self',
    Sentence_text self = (Ret (join " " (surface_forms tokens)), self') /\
    (self' = self \/
     self' = set_dict_text (join " " (surface_forms tokens)) self).
Proof.
  intros I. unfold Sentence_text. run_self.
  destruct (inv_text _ _ I) as [H | H]; rewrite H.
  - rewrite (inv_s _ _ I). eauto.
  - eauto.
Qed.

(** [terminal_nodes]: read from the dictionary when it is there,
    computed from the tree the sentence then has, and stored,
    otherwise. *)
Lemma Sentence_terminal_nodes_spec (tokens : TokenList) (self : Sentence) :
  sentence_inv tokens self ->
  exists nodes self',
    Sentence_terminal_nodes self = (Ret nodes, self') /\
    ((dict_terminal_nodes self = Some nodes /\ self' = self) \/
     (dict_terminal_nodes self = None /\
      nodes = match _simplified_tree self with
              | Some (Some t) => nodes_of t
              | _ => []
              end /\
      self' = set_dict_terminal_nodes nodes self)).
Proof.
  intros I. unfold Sentence_terminal_nodes. run_self.
  destruct (dict_terminal_nodes self) as [nodes |] eqn:Hd.
  - exists nodes, self. split; [reflexivity | left; auto].
  - destruct (inv_tree _ _ I) as (ot & _ & Hst). rewrite Hst.
    destruct ot as [f |]; simpl; do 2 eexists;
      (split; [reflexivity | right; repeat split; reflexivity]).
Qed.

Lemma sentence_inv_set_text (tokens : TokenList) (self : Sentence) :
  sentence_inv tokens self ->
  sentence_inv tokens (set_dict_text (join " " (surface_forms tokens)) self).
Proof.
  intros I. constructor; simpl; try apply I. right. reflexivity.
Qed.

Lemma sentence_inv_set_nodes (tokens : TokenList) (self : Sentence) :
  sentence_inv tokens self ->
  dict_terminal_nodes self = None ->
  sentence_inv tokens
    (set_dict_terminal_nodes
       match _simplified_tree self with
       | Some (Some t) => nodes_of t
       | _ => []
       end self).
Proof.
  intros I Hd. constructor; simpl; try apply I.
  - destruct (inv_terminals _ _ I) as [H | (nodes & t & Hn & _)];
      [left; exact H | congruence].
  - destruct (_simplified_tree self) as [[t |] |]; eauto.
Qed.

Lemma sentence_inv_text (tokens : TokenList) (self self' : Sentence)
    (r : outcome string) :
  sentence_inv tokens self ->
  Sentence_text self = (r, self') ->
  sentence_inv tokens self'.
Proof.
  intros I H. destruct (Sentence_text_spec tokens self I) as (s1 & E & Hs).
  rewrite E in H. injection H as <- <-.
  destruct Hs as [-> | ->]; [exact I | apply sentence_inv_set_text, I].
Qed.

Lemma sentence_inv_terminal_nodes (tokens : TokenList) (self self' : Sentence)
    (r : outcome (list SimpleTree)) :
  sentence_inv tokens self ->
  Sentence_terminal_nodes self = (r, self') ->
  sentence_inv tokens self'.
Proof.
  intros I H.
  destruct (Sentence_terminal_nodes_spec tokens self I)
    as (nodes & s1 & E & Hs).
  rewrite E in H. injection H as <- <-.
  destruct Hs as [[_ ->] | (Hd & -> & ->)]; [exact I |].
  apply sentence_inv_set_nodes; assumption.
Qed.

(** [terminals]: [None] without a tree; with a tree, the terminals made
    from the terminal nodes, kept in [_terminals] from then on. *)
Lemma Sentence_terminals_spec (tokens : TokenList) (self : Sentence) :
  sentence_inv tokens self ->
  (_simplified_tree self = Some None ->
   Sentence_terminals self = (Ret None, self)) /\
  (forall t, _simplified_tree self = Some (Some t) ->
   exists nodes self',
     Sentence_terminals self =
       (Ret (Some (map Terminal_of_node nodes)), self') /\
     sentence_inv tokens self' /\
     dict_terminal_nodes self' = Some nodes /\
     _terminals self' = Some (Some (map Terminal_of_node nodes)) /\
     (dict_terminal_nodes self = None -> nodes = nodes_of t) /\
     (forall old, dict_terminal_nodes self = Some old -> nodes = old) /\
     _simplified_tree self' = _simplified_tree self /\
     _s self' = _s self /\ dict_text self' = dict_text self /\
     _num self' = _num self).
Proof.
  intros I. split.
  - intros Ht. unfold Sentence_terminals. run_self. rewrite Ht. reflexivity.
  - intros t Ht.
    destruct (inv_terminals _ _ I) as [Hc | (nodes & t' & Hn & _ & Hc)].
    + destruct (Sentence_terminal_nodes_spec tokens self I)
        as (nodes & s1 & E & Hs).
      exists nodes, (set_terminals (Some (map Terminal_of_node nodes)) s1).
      split.
      { unfold Sentence_terminals. run_self. rewrite Ht, Hc.
        cbv beta iota. fold (Sentence_terminal_nodes). rewrite E.
        reflexivity. }
      assert (I1 : sentence_inv tokens s1)
        by (eapply sentence_inv_terminal_nodes; eauto).
      assert (Hd1 : dict_terminal_nodes s1 = Some nodes).
      { destruct Hs as [[Hd ->] | (_ & _ & ->)]; [exact Hd | reflexivity]. }
      assert (Ht1 : _simplified_tree s1 = Some (Some t)).
      { destruct Hs as [[_ ->] | (_ & _ & ->)]; exact Ht. }
      split; [| repeat split]; simpl.
      * constructor; simpl; try apply I1. right. exists nodes, t. auto.
      * exact Hd1.
      * intros Hnone. destruct Hs as [[Hd _] | (_ & -> & _)]; [congruence |].
        rewrite Ht. reflexivity.
      * intros old Hold. destruct Hs as [[Hd _] | (Hd & _ & _)]; congruence.
      * destruct Hs as [[_ ->] | (_ & _ & ->)]; reflexivity.
      * destruct Hs as [[_ ->] | (_ & _ & ->)]; reflexivity.
      * destruct Hs as [[_ ->] | (_ & _ & ->)]; reflexivity.
      * destruct Hs as [[_ ->] | (_ & _ & ->)]; reflexivity.
    + exists nodes, self. split.
      { unfold Sentence_terminals. run_self. rewrite Ht, Hc. reflexivity. }
      split; [exact I |]. repeat split; auto; congruence.
Qed.

Lemma sentence_inv_terminals (tokens : TokenList) (self self' : Sentence)
    (r : outcome (option (list Terminal))) :
  sentence_inv tokens self ->
  Sentence_terminals self = (r, self') ->
  sentence_inv tokens self'.
Proof.
  intros I H. destruct (Sentence_terminals_spec tokens self I) as [Hn Hs].
  destruct (inv_tree _ _ I) as (ot & _ & Hst).
  destruct ot as [f |]; simpl in Hst.
  - destruct (Hs _ Hst) as (nodes & s1 & E & I1 & _).
    rewrite E in H. injection H as <- <-. exact I1.
  - rewrite (Hn Hst) in H. injection H as <- <-. exact I.
Qed.

(** Every state of a sentence satisfies the invariant. *)
Lemma sentence_state_inv (tokens : TokenList) (self : Sentence) :
  sentence_state tokens self -> sentence_inv tokens self.
Proof.
  induction 1.
  - apply sentence_inv_new.
  - eapply sentence_inv_parse; eauto.
  - eapply sentence_inv_text; eauto.
  - eapply sentence_inv_terminal_nodes; eauto.
  - eapply sentence_inv_terminals; eauto.
Qed.

(** A successfully parsed sentence has a simplified tree. *)
Lemma parsed_has_tree (tokens : TokenList) (self : Sentence) :
  sentence_inv tokens self ->
  parsed_successfully self ->
  exists t, _simplified_tree self = Some (Some t).
Proof.
  intros I (n & Hn & Hpos).
  destruct (inv_num _ _ I) as [(Hnone & _) | (n' & Hn' & Hf)];
    [congruence |].
  assert (n' = n) by congruence. subst n'.
  destruct (Hf Hpos) as [f Hf'].
  destruct (inv_tree _ _ I) as (ot & Hot & Hst).
  rewrite Hf' in Hot. injection Hot as <-. simpl in Hst. eauto.
Qed.

(** A sentence that was not parsed, or whose parse raised an error, has
    no simplified tree. *)
Lemma unparsed_has_no_tree (tokens : TokenList) (self : Sentence) :
  sentence_inv tokens self ->
  _num self = Some None \/ (exists e, _error self = Some (Some e)) ->
  _simplified_tree self = Some None.
Proof.
  intros I H. destruct (inv_tree _ _ I) as (ot & Hot & Hst).
  assert (Hnone : _tree self = Some None).
  { destruct H as [Hn | [e He]].
    - destruct (inv_num _ _ I) as [(_ & Ht & _) | (n & Hn' & _)];
        [exact Ht | congruence].
    - destruct (inv_error _ _ I) as (oe & Hoe & Himp).
      apply Himp. congruence. }
  rewrite Hnone in Hot. injection Hot as <-. exact Hst.
Qed.

(** C8 (as amended).  In every state of a sentence: if it has been
    parsed successfully, [tidy_text] is the terminals' text joined with
    spaces and passed through [correct_spaces]; when [terminals] is
    [None], which it is for a sentence that has not been parsed and for
    one whose parse raised an error, [tidy_text] is [text] (the surface
    forms of the tokens joined with spaces) passed through
    [correct_spaces] as well. *)
Theorem tidy_text_spec (tokens : TokenList) (self : Sentence) :
  sentence_state tokens self ->
  (parsed_successfully self ->
   exists l,
     fst (Sentence_terminals self) = Ret (Some l) /\
     fst (Sentence_tidy_text self) =
       Ret (correct_spaces (join " " (map text l)))) /\
  (fst (Sentence_terminals self) = Ret None ->
   fst (Sentence_text self) = Ret (join " " (surface_forms tokens)) /\
   fst (Sentence_tidy_text self) =
     Ret (correct_spaces (join " " (surface_forms tokens)))) /\
  (_num self = Some None \/ (exists e, _error self = Some (Some e)) ->
   fst (Sentence_terminals self) = Ret None).
Proof.
  intros St. pose proof (sentence_state_inv _ _ St) as I.
  destruct (Sentence_terminals_spec tokens self I) as [Hnone Hsome].
  split; [| split].
  - intros Hp. destruct (parsed_has_tree _ _ I Hp) as [t Ht].
    destruct (Hsome t Ht) as (nodes & s1 & E & _).
    exists (map Terminal_of_node nodes). split; [rewrite E; reflexivity |].
    unfold Sentence_tidy_text, bind. rewrite E. reflexivity.
  - intros Hterm.
    assert (Ht : _simplified_tree self = Some None).
    { destruct (inv_tree _ _ I) as (ot & _ & Hst).
      destruct ot as [f |]; [| exact Hst]. simpl in Hst.
      destruct (Hsome _ Hst) as (nodes & s1 & E & _).
      rewrite E in Hterm. discriminate. }
    destruct (Sentence_text_spec tokens self I) as (s1 & E & _).
    split; [rewrite E; reflexivity |].
    unfold Sentence_tidy_text, bind. rewrite (Hnone Ht), E. reflexivity.
  - intros H. rewrite (Hnone (unparsed_has_no_tree _ _ I H)). reflexivity.
Qed.

(** ** Dump and load *)

Lemma surface_forms_load (tokens : TokenList) :
  surface_forms (map _load_token (map _dump_token tokens)) =
  surface_forms tokens.
Proof.
  induction tokens as [| t rest IH]; simpl; [reflexivity |].
  rewrite IH. reflexivity.
Qed.

Lemma SimpleTree_init_head (t : SimpleTree) :
  SimpleTree_init [[_head t]] = t.
Proof. destruct t. reflexivity. Qed.

(** [dump] reads the tokens and the head of the tree, and writes
    nothing. *)
Lemma Sentence_dump_spec (tokens : TokenList) (self : Sentence) :
  sentence_inv tokens self ->
  exists ot,
    _simplified_tree self = Some ot /\
    Sentence_dump self =
      (Ret {| dump_tokens := map _dump_token tokens;
              dump_tree := option_map _head ot |}, self).
Proof.
  intros I. destruct (inv_tree _ _ I) as (ot & _ & Hst).
  eexists. split; [exact Hst |].
  unfold Sentence_dump. run_self. rewrite (inv_s _ _ I), Hst. reflexivity.
Qed.

(** The four views of a sentence loaded from a dump with a tree. *)
Lemma loaded_views (cls : sentence_class) (toks : list TokRecord)
    (t : SimpleTree) :
  let loaded := Sentence_load cls toks (Some (_head t)) in
  fst (Sentence_terminals loaded) =
    Ret (Some (map Terminal_of_node (nodes_of t))) /\
  fst (Sentence_lemmas loaded) =
    Ret (Some (map lemma (map Terminal_of_node (nodes_of t)))) /\
  fst (Sentence_categories loaded) = Ret (Some (map node_cat (nodes_of t))) /\
  fst (Sentence_text loaded) =
    Ret (join " " (surface_forms (map _load_token toks))).
Proof.
  cbv zeta. unfold Sentence_load. simpl option_map.
  rewrite SimpleTree_init_head. repeat split.
Qed.

(** Round trip.  For a successfully parsed sentence whose cached
    terminal nodes, if any, are those of its tree, the sentence loaded
    from its dump has the same [terminals], [lemmas], [categories] and
    [text]. *)
Theorem dump_load_round_trip (cls : sentence_class) (tokens : TokenList)
    (self : Sentence) :
  sentence_state tokens self ->
  parsed_successfully self ->
  nodes_up_to_date self ->
  exists d,
    Sentence_dump self = (Ret d, self) /\
    let loaded := Sentence_load_dump cls d in
    fst (Sentence_terminals loaded) = fst (Sentence_terminals self) /\
    fst (Sentence_lemmas loaded) = fst (Sentence_lemmas self) /\
    fst (Sentence_categories loaded) = fst (Sentence_categories self) /\
    fst (Sentence_text loaded) = fst (Sentence_text self).
Proof.
  intros St Hp Hfresh. pose proof (sentence_state_inv _ _ St) as I.
  destruct (parsed_has_tree _ _ I Hp) as [t Ht].
  destruct (Sentence_dump_spec tokens self I) as (ot & Hot & Hdump).
  rewrite Ht in Hot. injection Hot as <-.
  eexists. split; [exact Hdump |]. cbv zeta.
  unfold Sentence_load_dump. cbn [dump_tokens dump_tree option_map].
  destruct (loaded_views cls (map _dump_token tokens) t)
    as (L1 & L2 & L3 & L4).
  rewrite L1, L2, L3, L4. clear L1 L2 L3 L4.
  destruct (Sentence_terminals_spec tokens self I) as [_ Hsome].
  destruct (Hsome t Ht) as (nodes & s1 & E & _ & _ & _ & Hnew & Hold & _).
  assert (Hnodes : nodes = nodes_of t).
  { destruct (dict_terminal_nodes self) as [old |] eqn:Hd.
    - rewrite (Hold old eq_refl). apply (Hfresh old t Hd Ht).
    - apply Hnew. reflexivity. }
  subst nodes.
  destruct (Sentence_terminal_nodes_spec tokens self I)
    as (nodes & s2 & En & Hs).
  assert (Hnodes : nodes = nodes_of t).
  { destruct Hs as [[Hd _] | (_ & -> & _)].
    - apply (Hfresh nodes t Hd Ht).
    - rewrite Ht. reflexivity. }
  subst nodes.
  destruct (Sentence_text_spec tokens self I) as (s3 & Et & _).
  repeat split.
  - rewrite E. reflexivity.
  - unfold Sentence_lemmas, bind. rewrite E. reflexivity.
  - unfold Sentence_categories, bind, Sentence_tree, self_attr, getattr.
    rewrite Ht. unfold ret at 1. rewrite En. reflexivity.
  - rewrite Et, surface_forms_load. reflexivity.
Qed.

(** ** Progress reporting *)







Lemma unparsed_new (cls : sentence_class) (tokens : TokenList) :
  unparsed (new_sentence cls tokens) tokens.
Proof. repeat split. Qed.

Lemma progress_ready_config (j j' : Job) :
  same_config j j' -> _num_sent j' = _num_sent j ->
  progress_ready j -> progress_ready j'.
Proof.
  intros (_ & _ & _ & _ & Hc & _ & Hp & _) Hs. unfold progress_ready.
  rewrite Hp, Hc, Hs. auto.
Qed.






Lemma sentences_loop_app {A} (lazy : bool) (a b : list (Z * TokenList))
    (body : Sentence -> M A) :
  forall w,
  sentences_loop lazy (a ++ b) body w =
  match sentences_loop lazy a body w with
  | (Ret r1, w1) =>
      match sentences_loop lazy b body w1 with
      | (Ret r2, w2) => (Ret (r1 ++ r2)%list, w2)
      | (Raise e, w2) => (Raise e, w2)
      end
  | (Raise e, w1) => (Raise e, w1)
  end.
Proof.
  induction a as [| [ix sent] a IH]; intros w.
  - simpl. unfold ret.
    destruct (sentences_loop lazy b body w) as [[r2 | e] w2]; reflexivity.
  - cbn [sentences_loop app]. unfold bind, emit, modify, ret.
    destruct lazy;
      (match goal with
       | |- context [Job_create_sentence sent ?w0] =>
           destruct (Job_create_sentence sent w0) as [[s | e] w1]
       end; [| reflexivity]);
      (match goal with
       | |- context [body ?s0 ?w2] => destruct (body s0 w2) as [[x | e] w3]
       end; [| reflexivity]);
      rewrite IH;
      (match goal with
       | |- context [sentences_loop ?lz a body ?w0] =>
           destruct (sentences_loop lz a body w0) as [[r1 | e] w4]
       end; [| reflexivity]);
      match goal with
      | |- context [sentences_loop ?lz b body ?w0] =>
          destruct (sentences_loop lz b body w0) as [[r2 | e] w5]
      end; reflexivity.
Qed.

(** Iterating the paragraphs of a job goes through the sentences of the
    segmentation in order. *)
Lemma paragraphs_loop_flat {A} (lazy : bool)
    (pgs : list (list (Z * TokenList))) (body : Sentence -> M A) :
  forall w,
  paragraphs_loop (map (mkParagraph TheJob lazy) pgs) body w =
  sentences_loop lazy (List.concat pgs) body w.
Proof.
  induction pgs as [| p pgs IH]; intros w; [reflexivity |].
  cbn [map paragraphs_loop List.concat]. rewrite sentences_loop_app.
  unfold bind, Paragraph_sentences. cbn [_p _p_lazy].
  destruct (sentences_loop lazy p body w) as [[r1 | e] w1]; [| reflexivity].
  rewrite IH.
  destruct (sentences_loop lazy (List.concat pgs) body w1) as [[r2 | e] w2];
    reflexivity.
Qed.



Lemma segment_events_are_segments (l : list (Z * TokenList)) :
  Forall (fun e => is_segment e = true) (segment_events l).
Proof.
  unfold segment_events. induction l as [| [ix sent] l IH]; simpl;
    constructor; auto.
Qed.




End Properties.

(** * More of the module

    Properties of the code beyond the statements above: the statistics
    of a job, the invocations of the engines, the error state of a
    sentence, its cached views, and the entry points of [Greynir]. *)

Section Extensions.

Context {X : Collaborators}.

Ltac run_monad :=
  unfold bind, ret, raise, gets, modify_job, modify, call_progress, emit,
    emit_all, assert, now; simpl.

Ltac run_self :=
  unfold cached_property, Sentence_tree, self_attr, getattr, bind, ret,
    raise, modify; cbn [fst snd].

(** ** The counters of a job *)

(** [sum(len(s))] over the sentences of a history. *)
Definition tokens_seen (h : list stat_entry) : Z :=
  fold_right (fun e acc => len (entry_tokens e) + acc) 0 h.

(** The number of sentences of a history that were parsed
    successfully. *)
Definition parsed_count (h : list stat_entry) : Z :=
  fold_right (fun e acc => (if 0 <? entry_num e then 1 else 0) + acc) 0 h.

(** The combinations of the successfully parsed sentences, summed. *)
Definition combinations_sum (h : list stat_entry) : Z :=
  fold_right
    (fun e acc => (if 0 <? entry_num e then entry_num e else 0) + acc) 0 h.

Lemma len_cons {A} (a : A) (l : list A) : len (a :: l) = len l + 1.
Proof. unfold len. simpl List.length. apply Nat2Z.inj_succ. Qed.

(** The four integer counters after one call of [_add_sentence],
    whatever its outcome: they are assigned before anything in the
    function can raise. *)
Lemma add_sentence_counters (s : TokenList) (n : Z) (pt rt : R) (w : World) :
  let j := job w in
  let j' := job (snd (Job_add_sentence s n pt rt w)) in
  _num_sent j' = _num_sent j + 1 /\
  _num_tokens j' = _num_tokens j + len s /\
  _num_parsed j' = _num_parsed j + (if 0 <? n then 1 else 0) /\
  _num_combinations j' = _num_combinations j + (if 0 <? n then n else 0).
Proof.
  unfold Job_add_sentence. run_monad. destruct w as [j l t]. simpl.
  destruct (0 <? n); simpl.
  - destruct (len s =? 0); simpl; [repeat split; lia |].
    destruct (_progress_func j); simpl; [| repeat split; lia].
    destruct (0 <? _cnt_sent j); simpl; [| repeat split; lia].
    destruct (_num_sent j + 1 + 1 <=? _cnt_sent j); simpl; repeat split; lia.
  - destruct (_progress_func j); simpl; [| repeat split; lia].
    destruct (0 <? _cnt_sent j); simpl; [| repeat split; lia].
    destruct (_num_sent j + 1 + 1 <=? _cnt_sent j); simpl; repeat split; lia.
Qed.

Lemma add_all_counters (h : list stat_entry) :
  forall w : World,
  let j := job w in
  let j' := job (add_all h w) in
  _num_sent j' = _num_sent j + len h /\
  _num_tokens j' = _num_tokens j + tokens_seen h /\
  _num_parsed j' = _num_parsed j + parsed_count h /\
  _num_combinations j' = _num_combinations j + combinations_sum h.
Proof.
  induction h as [| e h IH]; intros w; cbv zeta.
  - unfold len. simpl. repeat split; lia.
  - rewrite add_all_cons. destruct e as [[[s n] pt] rt].
    specialize (IH (snd (Job_add_sentence s n pt rt w))). cbv zeta in IH.
    destruct IH as (I1 & I2 & I3 & I4).
    destruct (add_sentence_counters s n pt rt w) as (S1 & S2 & S3 & S4).
    rewrite I1, I2, I3, I4, S1, S2, S3, S4.
    rewrite len_cons. simpl. repeat split; lia.
Qed.

Lemma parsed_count_bounds (h : list stat_entry) :
  0 <= parsed_count h <= len h /\ parsed_count h <= combinations_sum h.
Proof.
  induction h as [| e h IH]; [unfold len; simpl; lia |].
  rewrite len_cons. simpl.
  destruct (0 <? entry_num e) eqn:E; [apply Z.ltb_lt in E |]; lia.
Qed.

(** X2.  Statistics consistency.  After any sequence of processed sentences,
    whatever the outcome of each statistics update, [num_sentences] is
    the number of sentences processed, [num_tokens] the sum of their
    lengths, [num_parsed] the number of those with a positive number of
    combinations and [num_combinations] the sum of these numbers; so
    [0 <= num_parsed <= num_sentences] and
    [num_parsed <= num_combinations]. *)
Theorem statistics_consistency (cls : job_class) (g : Greynir)
    (toks : list Tok) (p : bool) (root : option string)
    (pf : option callback) (m : Z) (h : list stat_entry) :
  let j := job (add_all h (new_world (Job_init cls g toks p root pf m))) in
  Job_num_sentences j = len h /\
  Job_num_tokens j = tokens_seen h /\
  Job_num_parsed j = parsed_count h /\
  Job_num_combinations j = combinations_sum h /\
  0 <= Job_num_parsed j <= Job_num_sentences j /\
  Job_num_parsed j <= Job_num_combinations j.
Proof.
  cbv zeta.
  destruct (add_all_counters h
              (new_world (Job_init cls g toks p root pf m)))
    as (H1 & H2 & H3 & H4).
  simpl in H1, H2, H3, H4.
  unfold Job_num_sentences, Job_num_tokens, Job_num_parsed,
    Job_num_combinations.
  rewrite H1, H2, H3, H4.
  pose proof (parsed_count_bounds h). repeat split; lia.
Qed.

(** ** One call of [_Job.parse] *)

(** The token sequence passes the length threshold and the
    foreign-sentence filter of the job. *)
Definition reaches_engine (j : Job) (tokens : TokenList) : bool :=
  negb (too_long j tokens) && negb (filtered_as_foreign j tokens).

(** The invocations of the reduction engine. *)
Fixpoint reducer_calls (l : list event) : list Forest :=
  match l with
  | [] => []
  | EvReduce f :: rest => f :: reducer_calls rest
  | _ :: rest => reducer_calls rest
  end.

Lemma reducer_calls_app (a b : list event) :
  reducer_calls (a ++ b) = (reducer_calls a ++ reducer_calls b)%list.
Proof.
  induction a as [| e a IH]; simpl; [reflexivity |].
  destruct e; simpl; rewrite IH; reflexivity.
Qed.

(** The body of the [try] of [_Job.parse], case by case. *)
Lemma Job_parse_body_cases (tokens : TokenList) (t0 : R) (w : World) :
  let j := job w in
  let root := _root j in
  let called := (log w ++ [EvParserGo tokens root])%list in
  (reaches_engine j tokens = false /\
   exists msg ix,
     Job_parse_body tokens t0 w = (Raise (ParseError msg ix), w)) \/
  (reaches_engine j tokens = true /\
   ((exists msg ix,
       parser_go tokens root = inr (msg, ix) /\
       Job_parse_body tokens t0 w =
         (Raise (ParseError msg ix), mkWorld j called (ticks w))) \/
    (parser_go tokens root = inl None /\
     Job_parse_body tokens t0 w =
       (Ret (None, 0, 0, time_time (ticks w)),
        mkWorld j called (S (ticks w)))) \/
    (exists f,
       parser_go tokens root = inl (Some f) /\
       (1 <? num_combinations f) = true /\
       Job_parse_body tokens t0 w =
         (Ret (Some (fst (go_with_score f)), num_combinations f,
               snd (go_with_score f), time_time (ticks w)),
          mkWorld j (called ++ [EvReduce f]) (S (ticks w)))) \/
    (exists f,
       parser_go tokens root = inl (Some f) /\
       (1 <? num_combinations f) = false /\
       Job_parse_body tokens t0 w =
         (Ret (Some f, num_combinations f, 0, time_time (ticks w)),
          mkWorld j called (S (ticks w)))))).
Proof.
  cbv zeta. unfold reaches_engine.
  destruct (too_long (job w) tokens) eqn:Hlong.
  { left. split; [reflexivity |].
    rewrite (Job_parse_body_too_long tokens t0 w Hlong). eauto. }
  destruct (filtered_as_foreign (job w) tokens) eqn:Hfor.
  { left. split; [reflexivity |].
    rewrite (Job_parse_body_foreign tokens t0 w Hlong Hfor). eauto. }
  right. split; [reflexivity |].
  unfold too_long in Hlong. unfold filtered_as_foreign in Hfor.
  unfold Job_parse_body. run_monad. rewrite Hlong, Hfor.
  destruct w as [j l t]. simpl.
  destruct (parser_go tokens (_root j)) as [[f |] | [msg ix]]; simpl.
  - destruct (1 <? num_combinations f) eqn:Hn.
    + right. right. left. exists f. split; [reflexivity |].
      split; [exact Hn |].
      destruct (go_with_score f) as [f' sc]. simpl.
      rewrite <- app_assoc. reflexivity.
    + right. right. right. exists f. auto.
  - right. left. auto.
  - left. eauto.
Qed.

(** [_Job.parse] as its two parts: the body, then the statistics
    update of the [finally] clause, which is given the time since the
    start and the time since the grammar engine returned. *)
Lemma Job_parse_unfold (tokens : TokenList) (w w1 : World)
    (r : outcome parse_locals) :
  Job_parse_body tokens (time_time (ticks w)) (tick w) = (r, w1) ->
  let t0 := time_time (ticks w) in
  let t1 := match r with
            | Ret (_, _, _, t1) => t1
            | Raise _ => t0
            end in
  let tn := time_time (ticks w1) in
  Job_parse tokens w =
    match Job_add_sentence tokens (num_of_body r) (tn - t0)%R (tn - t1)%R
            (tick w1) with
    | (Raise e, w2) => (Raise e, w2)
    | (Ret _, w2) => (result_of_body r, w2)
    end.
Proof.
  intros Hbody. cbv zeta. unfold Job_parse. unfold now at 1.
  cbv zeta iota beta.
  change (mkWorld (job w) (log w) (S (ticks w))) with (tick w).
  rewrite Hbody.
  destruct r as [[[[f n] sc] t1] | e]; simpl;
    unfold bind at 1; unfold now at 1; fold (tick w1);
    match goal with
    | |- context [Job_add_sentence ?s ?n ?pt ?rt ?w0] =>
        destruct (Job_add_sentence s n pt rt w0) as [[u | e'] w2]
    end; reflexivity.
Qed.

(** The statistics update returns, or fails one of its assertions, or
    divides by zero; it raises nothing else. *)
Lemma add_sentence_outcome (s : TokenList) (n : Z) (pt rt : R) (w : World) :
  fst (Job_add_sentence s n pt rt w) = Ret tt \/
  fst (Job_add_sentence s n pt rt w) = Raise AssertionError \/
  fst (Job_add_sentence s n pt rt w) = Raise ZeroDivisionError.
Proof.
  unfold Job_add_sentence. run_monad. destruct w as [j l t]. simpl.
  destruct (0 <? n); simpl.
  - destruct (len s =? 0); simpl; [auto |].
    destruct (_progress_func j); simpl; [| auto].
    destruct (0 <? _cnt_sent j); simpl; [| auto].
    destruct (_num_sent j + 1 + 1 <=? _cnt_sent j); simpl; auto.
  - destruct (_progress_func j); simpl; [| auto].
    destruct (0 <? _cnt_sent j); simpl; [| auto].
    destruct (_num_sent j + 1 + 1 <=? _cnt_sent j); simpl; auto.
Qed.

Lemma Job_parse_body_job (tokens : TokenList) (t0 : R) (w : World) :
  job (snd (Job_parse_body tokens t0 w)) = job w.
Proof.
  destruct (Job_parse_body_cases tokens t0 w)
    as [(_ & msg & ix & ->) |
        (_ & [(msg & ix & _ & ->) |
              [(_ & ->) | [(f & _ & _ & ->) | (f & _ & _ & ->)]]])];
    reflexivity.
Qed.

(** X3.  Every call of [_Job.parse] counts its sentence, because the
    statistics are updated in a [finally] clause: [num_sentences] goes
    up by one and [num_tokens] by the length of the sequence, whether
    the call returns or raises (a [ParseError] or anything else); when
    it returns [num] combinations, [num_parsed] and [num_combinations]
    go up by one and by [num] if [num > 0] and stay otherwise; when it
    raises a [ParseError] they stay. *)
Theorem parse_counts_every_call (tokens : TokenList) (w : World) :
  let j := job w in
  let j' := job (snd (Job_parse tokens w)) in
  Job_num_sentences j' = Job_num_sentences j + 1 /\
  Job_num_tokens j' = Job_num_tokens j + len tokens /\
  (forall tree num score,
     fst (Job_parse tokens w) = Ret (tree, num, score) ->
     Job_num_parsed j' = Job_num_parsed j + (if 0 <? num then 1 else 0) /\
     Job_num_combinations j' =
       Job_num_combinations j + (if 0 <? num then num else 0)) /\
  (forall msg ix,
     fst (Job_parse tokens w) = Raise (ParseError msg ix) ->
     Job_num_parsed j' = Job_num_parsed j /\
     Job_num_combinations j' = Job_num_combinations j).
Proof.
  cbv zeta.
  destruct (Job_parse_body tokens (time_time (ticks w)) (tick w))
    as [r w1] eqn:Hbody.
  assert (Hjob : job w1 = job w).
  { pose proof (Job_parse_body_job tokens (time_time (ticks w)) (tick w)) as H.
    rewrite Hbody in H. exact H. }
  pose proof (Job_parse_unfold tokens w w1 r Hbody) as Hp. cbv zeta in Hp.
  set (t0 := time_time (ticks w)) in *.
  set (pt := (time_time (ticks w1) - t0)%R) in *.
  set (rt := (time_time (ticks w1) -
              match r with
              | Ret (_, _, _, t1) => t1
              | Raise _ => t0
              end)%R) in *.
  destruct (add_sentence_counters tokens (num_of_body r) pt rt (tick w1))
    as (C1 & C2 & C3 & C4).
  pose proof (add_sentence_outcome tokens (num_of_body r) pt rt (tick w1))
    as Hout.
  cbn [job tick] in C1, C2, C3, C4. rewrite Hjob in C1, C2, C3, C4.
  assert (Hw : snd (Job_parse tokens w) =
               snd (Job_add_sentence tokens (num_of_body r) pt rt (tick w1))).
  { rewrite Hp.
    destruct (Job_add_sentence tokens (num_of_body r) pt rt (tick w1))
      as [[u | e] w2]; reflexivity. }
  rewrite Hw.
  unfold Job_num_sentences, Job_num_tokens, Job_num_parsed,
    Job_num_combinations.
  split; [exact C1 |]. split; [exact C2 |]. split.
  - intros tree num score Hret. rewrite Hp in Hret.
    destruct (Job_add_sentence tokens (num_of_body r) pt rt (tick w1))
      as [[u | e] w2]; [| discriminate].
    destruct r as [[[[f n] sc] t1] | e]; [| discriminate].
    simpl in Hret. injection Hret as -> -> ->.
    simpl in C3, C4. auto.
  - intros msg ix Hraise. rewrite Hp in Hraise.
    destruct (Job_add_sentence tokens (num_of_body r) pt rt (tick w1))
      as [[u | e] w2].
    + destruct r as [[[[f n] sc] t1] | e]; [discriminate |].
      simpl in C3, C4 |- *. split; lia.
    + simpl in Hout. simpl in Hraise.
      destruct Hout as [H | [H | H]]; congruence.
Qed.

(** The trace after [_Job.parse] is the trace after the body of its
    [try], followed by at most one call of the progress function. *)
Lemma Job_parse_log (tokens : TokenList) (w w1 : World)
    (r : outcome parse_locals) :
  Job_parse_body tokens (time_time (ticks w)) (tick w) = (r, w1) ->
  exists evs,
    log (snd (Job_parse tokens w)) = (log w1 ++ evs)%list /\
    (evs = [] \/ exists v, evs = [EvProgress v]).
Proof.
  intros Hbody.
  destruct (Job_parse_world tokens w w1 r Hbody) as (pt & rt & ->).
  destruct (add_sentence_log tokens (num_of_body r) pt rt (tick w1))
    as (evs & Hlog & Hevs).
  exists evs. split; [exact Hlog | exact Hevs].
Qed.

(** X4.  The engines in one call of [_Job.parse].  The grammar engine is
    invoked at most once, exactly when the sequence passes the length
    threshold and the foreign-sentence filter, with the root of the job;
    the reduction engine is invoked at most once, exactly when the
    grammar engine returned a forest with more than one combination.
    When the call returns, the sequence passed both filters, and the
    result is the reduced forest and its score for a forest with
    several combinations, the forest as the grammar engine built it and
    a score of 0 for one with at most one, and [(None, 0, 0)] when the
    grammar engine returned no forest. *)
Theorem engine_invocations (tokens : TokenList) (w : World) :
  let j := job w in
  let root := _root j in
  let w' := snd (Job_parse tokens w) in
  parser_calls (log w') =
    (parser_calls (log w)
     ++ (if reaches_engine j tokens then [(tokens, root)] else []))%list /\
  reducer_calls (log w') =
    (reducer_calls (log w)
     ++ (if reaches_engine j tokens
         then match parser_go tokens root with
              | inl (Some f) => if 1 <? num_combinations f then [f] else []
              | _ => []
              end
         else []))%list /\
  (forall tree num score,
     fst (Job_parse tokens w) = Ret (tree, num, score) ->
     reaches_engine j tokens = true /\
     match parser_go tokens root with
     | inl (Some f) =>
         num = num_combinations f /\
         if 1 <? num
         then tree = Some (fst (go_with_score f)) /\
              score = snd (go_with_score f)
         else tree = Some f /\ score = 0
     | inl None => tree = None /\ num = 0 /\ score = 0
     | inr _ => False
     end).
Proof.
  cbv zeta.
  destruct (Job_parse_body tokens (time_time (ticks w)) (tick w))
    as [r w1] eqn:Hbody.
  destruct (Job_parse_log tokens w w1 r Hbody) as (evs & Hlog & Hevs).
  assert (Hquiet : parser_calls evs = [] /\ reducer_calls evs = []).
  { destruct Hevs as [-> | [v ->]]; split; reflexivity. }
  destruct Hquiet as [Hq1 Hq2].
  rewrite Hlog, parser_calls_app, reducer_calls_app, Hq1, Hq2, !app_nil_r.
  pose proof (Job_parse_unfold tokens w w1 r Hbody) as Hp. cbv zeta in Hp.
  assert (Hret : forall x, fst (Job_parse tokens w) = Ret x ->
                 result_of_body r = Ret x).
  { intros x Hx. rewrite Hp in Hx.
    match type of Hx with
    | context [Job_add_sentence ?s ?n ?pt ?rt ?w0] =>
        destruct (Job_add_sentence s n pt rt w0) as [[u | e] w2]
    end; [exact Hx | discriminate]. }
  pose proof (Job_parse_body_cases tokens (time_time (ticks w)) (tick w))
    as Hc.
  cbv zeta in Hc. cbn [job log ticks tick] in Hc. rewrite Hbody in Hc.
  destruct Hc as [(Hre & msg & ix & E) |
                  (Hre & [(msg & ix & Hgo & E) |
                          [(Hgo & E) |
                           [(f & Hgo & Hn & E) | (f & Hgo & Hn & E)]]])];
    injection E as -> ->; rewrite Hre; cbn [log];
    rewrite ?parser_calls_app, ?reducer_calls_app, ?Hgo, ?Hn; simpl;
    rewrite ?app_nil_r;
    (split; [reflexivity |]); (split; [reflexivity |]);
    intros tree num score Hx; apply Hret in Hx; simpl in Hx;
    try discriminate; injection Hx as <- <- <-;
    (split; [reflexivity |]); rewrite ?Hn; auto.
Qed.

(** ** The error state of a sentence *)

(** X5.  A syntax error.  When the grammar engine raises a [ParseError] for
    a sentence that has not been parsed (the assertions of the
    statistics update holding), [parse] returns [False] and records the
    error: [err_index] is the token index the engine reported, or the
    index of the last token when it reported none; [combinations] and
    [score] are 0, there is no tree, and the sentence is counted in
    [num_sentences] but not in [num_parsed]. *)
Theorem syntax_error_recorded (w : World) (self : Sentence)
    (tokens : TokenList) (msg : string) (ix : option Z) :
  unparsed self tokens ->
  reaches_engine (job w) tokens = true ->
  parser_go tokens (_root (job w)) = inr (msg, ix) ->
  progress_ready (job w) ->
  exists w' self',
    Sentence_parse (w, self) = (Ret false, (w', self')) /\
    fst (Sentence_err_index self') =
      Ret (Some match ix with
                | Some i => i
                | None => len tokens - 1
                end) /\
    fst (Sentence_error self') = Ret (Some (ParseError msg ix)) /\
    fst (Sentence_combinations self') = Ret (Some 0) /\
    fst (Sentence_score self') = Ret (Some 0) /\
    fst (Sentence_tree self') = Ret None /\
    fst (Sentence_deep_tree self') = Ret None /\
    Job_num_sentences (job w') = Job_num_sentences (job w) + 1 /\
    Job_num_parsed (job w') = Job_num_parsed (job w).
Proof.
  intros Hun Hre Hgo Hready.
  pose proof (Job_parse_body_cases tokens (time_time (ticks w)) (tick w))
    as Hc.
  cbv zeta in Hc. cbn [job log ticks tick] in Hc.
  rewrite Hre, Hgo in Hc.
  destruct Hc as [(Hf & _) |
                  (_ & [(msg' & ix' & Hgo' & E) |
                        [(Hgo' & _) |
                         [(f & Hgo' & _) | (f & Hgo' & _)]]])];
    try discriminate.
  injection Hgo' as <- <-.
  destruct (Job_parse_finally tokens w _ _ E eq_refl)
    as (j' & Hparse & _ & Hsent & _ & Hparsed & _);
    [simpl; lia | exact Hready |].
  rewrite (Sentence_parse_unparsed w self tokens Hun), Hparse. simpl.
  do 2 eexists. split; [reflexivity |].
  unfold Job_num_sentences, Job_num_parsed. simpl in Hparsed |- *.
  repeat split; try reflexivity; try exact Hsent; lia.
Qed.

(** The attributes that only the constructor and [parse] assign. *)
Definition same_core (s s' : Sentence) : Prop :=
  sent_cls s' = sent_cls s /\ _job s' = _job s /\ _s s' = _s s /\
  _len s' = _len s /\ dict_len s' = dict_len s /\
  _err_index s' = _err_index s /\ _error s' = _error s /\
  _tree s' = _tree s /\ _simplified_tree s' = _simplified_tree s /\
  _num s' = _num s /\ _score s' = _score s.

Lemma same_core_refl (s : Sentence) : same_core s s.
Proof. repeat split. Qed.

(** The caching properties write to their cache and to nothing else,
    whatever they return. *)
Lemma Sentence_text_frame (self : Sentence) :
  same_core self (snd (Sentence_text self)).
Proof.
  unfold Sentence_text. run_self.
  destruct (dict_text self); [apply same_core_refl |].
  destruct (_s self); simpl; repeat split.
Qed.

Lemma Sentence_terminal_nodes_frame (self : Sentence) :
  same_core self (snd (Sentence_terminal_nodes self)).
Proof.
  unfold Sentence_terminal_nodes. run_self.
  destruct (dict_terminal_nodes self); [apply same_core_refl |].
  destruct (_simplified_tree self) as [[t |] |]; simpl; repeat split.
Qed.

Lemma Sentence_terminals_frame (self : Sentence) :
  same_core self (snd (Sentence_terminals self)).
Proof.
  unfold Sentence_terminals. run_self.
  destruct (_simplified_tree self) as [[t |] |] eqn:Ht; simpl;
    try apply same_core_refl.
  destruct (_terminals self) as [[l |] |]; simpl; try apply same_core_refl.
  pose proof (Sentence_terminal_nodes_frame self) as F.
  destruct (Sentence_terminal_nodes self) as [[nodes | e] s1]; simpl in *.
  - unfold same_core in *. simpl. exact F.
  - exact F.
Qed.

(** The error state of a sentence made for [tokens]: no error and no
    error index, or a [ParseError], its index, no combination and no
    tree. *)
Definition error_state (tokens : TokenList) (self : Sentence) : Prop :=
  (_error self = Some None /\ _err_index self = Some None) \/
  (exists msg ix,
     _error self = Some (Some (ParseError msg ix)) /\
     _err_index self =
       Some (Some match ix with
                  | Some i => i
                  | None => len tokens - 1
                  end) /\
     _num self = Some (Some 0) /\ _score self = Some (Some 0) /\
     _tree self = Some None /\ _simplified_tree self = Some None).

Lemma error_state_core (tokens : TokenList) (s s' : Sentence) :
  same_core s s' -> error_state tokens s -> error_state tokens s'.
Proof.
  unfold same_core, error_state.
  intros (_ & _ & _ & _ & _ & He & Hr & Ht & Hst & Hn & Hsc) H.
  rewrite He, Hr, Ht, Hst, Hn, Hsc. exact H.
Qed.

Lemma error_state_holds (tokens : TokenList) (self : Sentence) :
  sentence_state tokens self -> error_state tokens self.
Proof.
  induction 1 as [cls | w w' self self' r St IH Hp | self self' r St IH Hp |
                  self self' r St IH Hp | self self' r St IH Hp].
  - left. split; reflexivity.
  - pose proof (sentence_state_inv _ _ St) as I.
    destruct (inv_num _ _ I) as [(Hnum & Htree & Herr) | (n & Hnum & _)].
    + assert (Hun : unparsed self tokens).
      { repeat split; [exact Hnum | apply (inv_job _ _ I) |
                       apply (inv_s _ _ I) | apply (inv_len _ _ I)]. }
      assert (Hix : _err_index self = Some None).
      { destruct IH as [[_ H] | (m & i & He & _)]; [exact H | congruence]. }
      rewrite (Sentence_parse_unparsed w self tokens Hun) in Hp.
      destruct (Job_parse tokens w) as [[[[tree num] score] | e] w1].
      * injection Hp as <- <- <-. left. simpl. auto.
      * destruct e; try (injection Hp as <- <- <-; exact IH).
        injection Hp as <- <- <-. right. exists msg, token_index.
        simpl. repeat split.
    + rewrite (Sentence_parse_parsed w self n Hnum) in Hp.
      injection Hp as <- <- <-. exact IH.
  - eapply error_state_core; [| exact IH].
    pose proof (Sentence_text_frame self) as F. rewrite Hp in F. exact F.
  - eapply error_state_core; [| exact IH].
    pose proof (Sentence_terminal_nodes_frame self) as F.
    rewrite Hp in F. exact F.
  - eapply error_state_core; [| exact IH].
    pose proof (Sentence_terminals_frame self) as F.
    rewrite Hp in F. exact F.
Qed.

(** X6.  Error coherence.  In every state of a sentence, either [error] and
    [err_index] are both [None], or [error] is a [ParseError],
    [err_index] is its token index (the last token when it has none),
    [combinations] and [score] are 0 and [tree] and [terminals] are
    [None]; in particular a successfully parsed sentence has no
    error. *)
Theorem error_coherence (tokens : TokenList) (self : Sentence) :
  sentence_state tokens self ->
  ((fst (Sentence_error self) = Ret None /\
    fst (Sentence_err_index self) = Ret None) \/
   (exists msg ix,
      fst (Sentence_error self) = Ret (Some (ParseError msg ix)) /\
      fst (Sentence_err_index self) =
        Ret (Some match ix with
                  | Some i => i
                  | None => len tokens - 1
                  end) /\
      fst (Sentence_combinations self) = Ret (Some 0) /\
      fst (Sentence_score self) = Ret (Some 0) /\
      fst (Sentence_tree self) = Ret None /\
      fst (Sentence_terminals self) = Ret None)) /\
  (parsed_successfully self -> fst (Sentence_error self) = Ret None).
Proof.
  intros St. pose proof (error_state_holds _ _ St) as E.
  pose proof (sentence_state_inv _ _ St) as I.
  destruct (Sentence_terminals_spec tokens self I) as [Hterm _].
  unfold Sentence_error, Sentence_err_index, Sentence_combinations,
    Sentence_score, Sentence_tree, self_attr.
  destruct E as [[He Hi] | (msg & ix & He & Hi & Hn & Hsc & _ & Hst)].
  - rewrite He, Hi. split; [left; split; reflexivity | reflexivity].
  - rewrite (Hterm Hst), He, Hi, Hn, Hsc, Hst. split.
    + right. exists msg, ix. repeat split.
    + intros (n & Hn' & Hpos). rewrite Hn in Hn'. injection Hn' as <-. lia.
Qed.

(** ** The cached views of a sentence *)

(** The terminal nodes the views of a sentence are built from: the
    cached ones when there are, those of the tree otherwise. *)
Definition effective_nodes (self : Sentence) : list SimpleTree :=
  match dict_terminal_nodes self with
  | Some nodes => nodes
  | None =>
      match _simplified_tree self with
      | Some (Some t) => nodes_of t
      | _ => []
      end
  end.

(** The simplified tree of a sentence, if it has one. *)
Definition tree_of (self : Sentence) : option SimpleTree :=
  match _simplified_tree self with
  | Some o => o
  | None => None
  end.

(** What the views return, in terms of the tree and the effective
    terminal nodes. *)
Lemma views_spec (tokens : TokenList) (self : Sentence) :
  sentence_inv tokens self ->
  let nodes := effective_nodes self in
  let with_tree {A} (v : A) : option A := option_map (fun _ => v) (tree_of self) in
  fst (Sentence_text self) = Ret (join " " (surface_forms tokens)) /\
  fst (Sentence_terminal_nodes self) = Ret nodes /\
  fst (Sentence_terminals self) = Ret (with_tree (map Terminal_of_node nodes)) /\
  fst (Sentence_lemmas self) = Ret (with_tree (map node_lemma nodes)) /\
  fst (Sentence_categories self) = Ret (with_tree (map node_cat nodes)) /\
  fst (Sentence_lemmas_and_cats self) =
    Ret (with_tree (map (fun d => (node_lemma d, node_lemma_cat d)) nodes)) /\
  fst (Sentence_tidy_text self) =
    Ret (correct_spaces
           match tree_of self with
           | Some _ => join " " (map node_text nodes)
           | None => join " " (surface_forms tokens)
           end).
Proof.
  intros I. cbv zeta.
  destruct (Sentence_text_spec tokens self I) as (s1 & Et & _).
  destruct (Sentence_terminal_nodes_spec tokens self I)
    as (nodes & s2 & En & Hs).
  assert (Hnodes : nodes = effective_nodes self).
  { unfold effective_nodes.
    destruct Hs as [[Hd _] | (Hd & -> & _)]; rewrite Hd; reflexivity. }
  subst nodes.
  destruct (Sentence_terminals_spec tokens self I) as [Hnone Hsome].
  destruct (inv_tree _ _ I) as (ot & _ & Hst).
  unfold tree_of. rewrite Hst.
  split; [rewrite Et; reflexivity |].
  split; [rewrite En; reflexivity |].
  destruct ot as [f |]; simpl option_map; simpl in Hst.
  - destruct (Hsome _ Hst) as (nodes & s3 & E & _ & _ & _ & Hnew & Hold & _).
    assert (Hnodes : nodes = effective_nodes self).
    { unfold effective_nodes.
      destruct (dict_terminal_nodes self) as [old |].
      - apply Hold. reflexivity.
      - rewrite Hst. apply Hnew. reflexivity. }
    subst nodes.
    assert (Hmap : forall {B} (g : Terminal -> B),
              map g (map Terminal_of_node (effective_nodes self)) =
              map (fun d => g (Terminal_of_node d)) (effective_nodes self))
      by (intros; apply map_map).
    repeat split.
    + rewrite E. reflexivity.
    + unfold Sentence_lemmas, bind. rewrite E. simpl. rewrite Hmap.
      reflexivity.
    + unfold Sentence_categories, bind, Sentence_tree, self_attr, getattr.
      rewrite Hst. unfold ret at 1. rewrite En. reflexivity.
    + unfold Sentence_lemmas_and_cats, bind, Sentence_tree, self_attr,
        getattr.
      rewrite Hst. unfold ret at 1. rewrite En. reflexivity.
    + unfold Sentence_tidy_text, bind. rewrite E. simpl. rewrite Hmap.
      reflexivity.
  - repeat split.
    + rewrite (Hnone Hst). reflexivity.
    + unfold Sentence_lemmas, bind. rewrite (Hnone Hst). reflexivity.
    + unfold Sentence_categories, bind, Sentence_tree, self_attr, getattr.
      rewrite Hst. reflexivity.
    + unfold Sentence_lemmas_and_cats, bind, Sentence_tree, self_attr,
        getattr.
      rewrite Hst. reflexivity.
    + unfold Sentence_tidy_text, bind. rewrite (Hnone Hst), Et. reflexivity.
Qed.

(** X7.  Aligned views.  In every state of a sentence: without a tree,
    [terminals], [lemmas], [categories] and [lemmas_and_cats] are
    [None] and [terminal_nodes] is empty; with a tree they are the
    images of one and the same list of terminal nodes, the one
    [terminal_nodes] returns, so that they have the same length and
    agree index by index.  That list is the list of the terminal nodes
    of the tree, or the empty list cached by a read of [terminal_nodes]
    made before the sentence was parsed. *)
Theorem aligned_views (tokens : TokenList) (self : Sentence) :
  sentence_state tokens self ->
  (fst (Sentence_tree self) = Ret None ->
   fst (Sentence_terminal_nodes self) = Ret [] /\
   fst (Sentence_terminals self) = Ret None /\
   fst (Sentence_lemmas self) = Ret None /\
   fst (Sentence_categories self) = Ret None /\
   fst (Sentence_lemmas_and_cats self) = Ret None) /\
  (forall t, fst (Sentence_tree self) = Ret (Some t) ->
   exists nodes,
     (nodes = nodes_of t \/ nodes = []) /\
     fst (Sentence_terminal_nodes self) = Ret nodes /\
     fst (Sentence_terminals self) = Ret (Some (map Terminal_of_node nodes)) /\
     fst (Sentence_lemmas self) = Ret (Some (map node_lemma nodes)) /\
     fst (Sentence_categories self) = Ret (Some (map node_cat nodes)) /\
     fst (Sentence_lemmas_and_cats self) =
       Ret (Some (map (fun d => (node_lemma d, node_lemma_cat d)) nodes))).
Proof.
  intros St. pose proof (sentence_state_inv _ _ St) as I.
  pose proof (views_spec tokens self I) as V. cbv zeta in V.
  destruct V as (_ & V1 & V2 & V3 & V4 & V5 & _).
  destruct (inv_tree _ _ I) as (ot & _ & Hst).
  unfold Sentence_tree, self_attr. rewrite Hst. simpl.
  unfold tree_of in *. rewrite Hst in *.
  assert (Heff : match ot with
                 | Some f =>
                     effective_nodes self =
                       nodes_of (from_deep_tree f tokens) \/
                     effective_nodes self = []
                 | None => effective_nodes self = []
                 end).
  { unfold effective_nodes. rewrite Hst.
    destruct (inv_nodes _ _ I) as [Hd | [Hd | (t & Ht & Hd)]]; rewrite Hd.
    - destruct ot; simpl; auto.
    - destruct ot; simpl; auto.
    - rewrite Hst in Ht. destruct ot as [f |]; simpl in Ht; [| discriminate].
      injection Ht as <-. auto. }
  split.
  - intros Hnone. destruct ot as [f |]; [discriminate |].
    rewrite Heff in V1. simpl in *. auto.
  - intros t Ht. destruct ot as [f |]; [| discriminate].
    simpl in Ht. injection Ht as <-.
    exists (effective_nodes self). simpl in *. auto 10.
Qed.

(** What can be observed of a sentence through its views. *)
Definition observed (self : Sentence) :=
  (fst (Sentence_text self), fst (Sentence_terminal_nodes self),
   fst (Sentence_terminals self), fst (Sentence_lemmas self),
   fst (Sentence_categories self), fst (Sentence_lemmas_and_cats self),
   fst (Sentence_tidy_text self)).

(** [s'] is a state of the same sentence with the same tree and the
    same effective terminal nodes. *)
Definition stable (tokens : TokenList) (s s' : Sentence) : Prop :=
  sentence_inv tokens s' /\ tree_of s' = tree_of s /\
  effective_nodes s' = effective_nodes s.

Lemma stable_observed (tokens : TokenList) (s s' : Sentence) :
  sentence_inv tokens s -> stable tokens s s' -> observed s' = observed s.
Proof.
  intros I (I' & Ht & Hn).
  pose proof (views_spec tokens s I) as V.
  pose proof (views_spec tokens s' I') as V'.
  cbv zeta in V, V'. rewrite Ht, Hn in V'.
  destruct V as (A1 & A2 & A3 & A4 & A5 & A6 & A7).
  destruct V' as (B1 & B2 & B3 & B4 & B5 & B6 & B7).
  unfold observed. congruence.
Qed.

Lemma stable_trans (tokens : TokenList) (s1 s2 s3 : Sentence) :
  stable tokens s1 s2 -> stable tokens s2 s3 -> stable tokens s1 s3.
Proof.
  intros (_ & T1 & N1) (I & T2 & N2).
  split; [exact I |]. split; congruence.
Qed.

Lemma stable_refl (tokens : TokenList) (s : Sentence) :
  sentence_inv tokens s -> stable tokens s s.
Proof. intros I. split; [exact I |]. split; reflexivity. Qed.

Lemma stable_text (tokens : TokenList) (s : Sentence) :
  sentence_inv tokens s -> stable tokens s (snd (Sentence_text s)).
Proof.
  intros I. destruct (Sentence_text_spec tokens s I) as (s1 & E & Hs).
  rewrite E. simpl.
  destruct Hs as [-> | ->]; [apply stable_refl, I |].
  split; [apply sentence_inv_set_text, I |]. split; reflexivity.
Qed.

Lemma stable_terminal_nodes (tokens : TokenList) (s : Sentence) :
  sentence_inv tokens s -> stable tokens s (snd (Sentence_terminal_nodes s)).
Proof.
  intros I.
  destruct (Sentence_terminal_nodes_spec tokens s I) as (nodes & s1 & E & Hs).
  rewrite E. simpl.
  destruct Hs as [[_ ->] | (Hd & -> & ->)]; [apply stable_refl, I |].
  split; [apply sentence_inv_set_nodes; assumption |].
  split; [reflexivity |].
  unfold effective_nodes. simpl. rewrite Hd. reflexivity.
Qed.

Lemma stable_terminals (tokens : TokenList) (s : Sentence) :
  sentence_inv tokens s -> stable tokens s (snd (Sentence_terminals s)).
Proof.
  intros I. destruct (Sentence_terminals_spec tokens s I) as [Hnone Hsome].
  destruct (inv_tree _ _ I) as (ot & _ & Hst).
  destruct ot as [f |]; simpl in Hst.
  - destruct (Hsome _ Hst)
      as (nodes & s1 & E & I1 & Hd1 & _ & Hnew & Hold & Ht1 & _).
    rewrite E. simpl. split; [exact I1 |].
    split; [unfold tree_of; rewrite Ht1; reflexivity |].
    unfold effective_nodes. rewrite Hd1, Hst.
    destruct (dict_terminal_nodes s) as [old |].
    + apply Hold. reflexivity.
    + apply Hnew. reflexivity.
  - rewrite (Hnone Hst). simpl. apply stable_refl, I.
Qed.

(** X8.  Caching is transparent.  In every state of a sentence, reading
    [text], [terminal_nodes], [terminals], [lemmas], [categories],
    [lemmas_and_cats] or [tidy_text] leaves what each of these seven
    views returns as it was: a view read again, or read after another
    one, returns the same value. *)
Theorem caching_transparent (tokens : TokenList) (self : Sentence) :
  sentence_state tokens self ->
  observed (snd (Sentence_text self)) = observed self /\
  observed (snd (Sentence_terminal_nodes self)) = observed self /\
  observed (snd (Sentence_terminals self)) = observed self /\
  observed (snd (Sentence_lemmas self)) = observed self /\
  observed (snd (Sentence_categories self)) = observed self /\
  observed (snd (Sentence_lemmas_and_cats self)) = observed self /\
  observed (snd (Sentence_tidy_text self)) = observed self.
Proof.
  intros St. pose proof (sentence_state_inv _ _ St) as I.
  pose proof (stable_text tokens self I) as S1.
  pose proof (stable_terminal_nodes tokens self I) as S2.
  pose proof (stable_terminals tokens self I) as S3.
  assert (S4 : stable tokens self (snd (Sentence_lemmas self))).
  { unfold Sentence_lemmas, bind.
    destruct (Sentence_terminals self) as [[l | e] s1]; exact S3. }
  assert (S5 : stable tokens self (snd (Sentence_categories self))).
  { unfold Sentence_categories, bind, Sentence_tree, self_attr, getattr.
    destruct (inv_tree _ _ I) as (ot & _ & Hst). rewrite Hst.
    unfold ret at 1.
    destruct ot as [f |]; simpl; [| apply stable_refl, I].
    destruct (Sentence_terminal_nodes self) as [[l | e] s1]; exact S2. }
  assert (S6 : stable tokens self (snd (Sentence_lemmas_and_cats self))).
  { unfold Sentence_lemmas_and_cats, bind, Sentence_tree, self_attr, getattr.
    destruct (inv_tree _ _ I) as (ot & _ & Hst). rewrite Hst.
    unfold ret at 1.
    destruct ot as [f |]; simpl; [| apply stable_refl, I].
    destruct (Sentence_terminal_nodes self) as [[l | e] s1]; exact S2. }
  assert (S7 : stable tokens self (snd (Sentence_tidy_text self))).
  { unfold Sentence_tidy_text, bind.
    destruct (Sentence_terminals self) as [[[l |] | e] s1] eqn:E;
      simpl in S3; try exact S3.
    pose proof (stable_text tokens s1 (proj1 S3)) as S8.
    destruct (Sentence_text s1) as [[v | e] s2]; unfold ret;
      cbn [snd] in *; exact (stable_trans _ _ _ _ S3 S8). }
  repeat split; apply (stable_observed tokens); assumption.
Qed.

(** ** Parsing a whole text *)

(** The sentence was parsed, with at least one combination. *)
Definition sentence_ok (s : Sentence) : bool :=
  match _num s with
  | Some (Some n) => 0 <? n
  | _ => false
  end.













(** ** Taking the first sentence only *)




(** The class of the sentence objects a job creates. *)
Definition created_class (j : Job) : sentence_class :=
  match job_cls j with
  | Class_Job => Class_Sentence
  | Class_Job_NP => Class_NounPhrase
  end.






(** ** The two clocks of a job *)

(** The statistics update adds the two durations it is given to
    [_parse_time] and [_reduce_time], unless the division by the length
    of an empty sequence stopped it before. *)
Lemma add_sentence_times (s : TokenList) (n : Z) (pt rt : R) (w : World) :
  let j' := job (snd (Job_add_sentence s n pt rt w)) in
  (_parse_time j' = (_parse_time (job w) + pt)%R /\
   _reduce_time j' = (_reduce_time (job w) + rt)%R) \/
  ((0 <? n) = true /\
   fst (Job_add_sentence s n pt rt w) = Raise ZeroDivisionError /\
   _parse_time j' = _parse_time (job w) /\
   _reduce_time j' = _reduce_time (job w)).
Proof.
  cbv zeta. unfold Job_add_sentence. run_monad. destruct w as [j l t]. simpl.
  destruct (0 <? n); simpl.
  - destruct (len s =? 0); simpl; [right; auto |].
    destruct (_progress_func j); simpl; [| left; auto].
    destruct (0 <? _cnt_sent j); simpl; [| left; auto].
    destruct (_num_sent j + 1 + 1 <=? _cnt_sent j); simpl; left; auto.
  - destruct (_progress_func j); simpl; [| left; auto].
    destruct (0 <? _cnt_sent j); simpl; [| left; auto].
    destruct (_num_sent j + 1 + 1 <=? _cnt_sent j); simpl; left; auto.
Qed.

(** X12. Time accounting of one call of [_Job.parse], for a clock that
    does not run backwards.  The call adds a non-negative duration to
    [reduce_time] and at least as much to [parse_time].  When the
    sentence is not parsed because a filter rejected it or the grammar
    engine raised a [ParseError], the two grow by the same amount: the
    whole duration of the call is counted as reduction time too. *)
Theorem time_accounting (tokens : TokenList) (w : World) :
  (forall a b : nat, (a <= b)%nat -> (time_time a <= time_time b)%R) ->
  let j := job w in
  let j' := job (snd (Job_parse tokens w)) in
  let dp := (Job_parse_time j' - Job_parse_time j)%R in
  let dr := (Job_reduce_time j' - Job_reduce_time j)%R in
  (0 <= dr <= dp)%R /\
  (reaches_engine j tokens = false \/
   (exists msg ix, parser_go tokens (_root j) = inr (msg, ix)) ->
   dr = dp /\
   dp = (time_time (S (ticks w)) - time_time (ticks w))%R).
Proof.
  intros Hmono. cbv zeta. unfold Job_parse_time, Job_reduce_time.
  destruct (Job_parse_body tokens (time_time (ticks w)) (tick w))
    as [r w1] eqn:Hbody.
  pose proof (Job_parse_unfold tokens w w1 r Hbody) as Hp. cbv zeta in Hp.
  assert (Hw : snd (Job_parse tokens w) =
               snd (Job_add_sentence tokens (num_of_body r)
                      (time_time (ticks w1) - time_time (ticks w))
                      (time_time (ticks w1) -
                       match r with
                       | Ret (_, _, _, t1) => t1
                       | Raise _ => time_time (ticks w)
                       end) (tick w1))).
  { rewrite Hp.
    match goal with
    | |- context [Job_add_sentence ?s ?n ?pt ?rt ?w0] =>
        destruct (Job_add_sentence s n pt rt w0) as [[u | e] w2]
    end; reflexivity. }
  rewrite Hw. clear Hw Hp.
  pose proof (Hmono (ticks w) (S (ticks w)) (Nat.le_succ_diag_r _)) as M1.
  pose proof (Hmono (S (ticks w)) (S (S (ticks w))) (Nat.le_succ_diag_r _))
    as M2.
  pose proof (Job_parse_body_cases tokens (time_time (ticks w)) (tick w))
    as Hc.
  cbv zeta in Hc. cbn [job log ticks tick] in Hc. rewrite Hbody in Hc.
  destruct Hc as [(Hre & msg & ix & E) |
                  (Hre & [(msg & ix & Hgo & E) |
                          [(Hgo & E) |
                           [(f & Hgo & Hn & E) | (f & Hgo & Hn & E)]]])];
    injection E as -> ->; cbn [num_of_body ticks tick job];
    match goal with
    | |- context [Job_add_sentence ?s ?n ?pt ?rt ?w0] =>
        destruct (add_sentence_times s n pt rt w0)
          as [[-> ->] | (Hz & _ & -> & ->)]
    end; unfold tick; cbn [job]; try discriminate Hz;
    (split; [lra |]);
    try (intros _; split; lra);
    intros [Hno | (msg' & ix' & Hno)]; congruence.
Qed.

(** ** Reading a loaded sentence *)

(** X13. What can be read from a sentence made by [load].  The
    dictionary has no ["_tree"], so [deep_tree] raises
    [AttributeError]; [error], [err_index] and [score] are [None] and
    [tokens] are the loaded tokens, whatever was dumped.  Loaded
    without a tree, the sentence reads as one that was never parsed:
    [tree], [flat_tree] and the terminal views are [None],
    [terminal_nodes] is empty, [tidy_text] is the respaced [text], and
    [dump] gives the tokens and no tree. *)
Theorem loaded_sentence_reads (cls : sentence_class)
    (toks : list TokRecord) (tree : option Head) :
  let s := Sentence_load cls toks tree in
  let s0 := Sentence_load cls toks None in
  let txt := join " " (surface_forms (map _load_token toks)) in
  Sentence_deep_tree s = (Raise (AttributeError "_tree"), s) /\
  Sentence_error s = (Ret None, s) /\
  Sentence_err_index s = (Ret None, s) /\
  Sentence_score s = (Ret None, s) /\
  Sentence_tokens s = (Ret (map _load_token toks), s) /\
  fst (Sentence_text s) = Ret txt /\
  Sentence_tree s0 = (Ret None, s0) /\
  Sentence_flat_tree s0 = (Ret None, s0) /\
  Sentence_terminals s0 = (Ret None, s0) /\
  Sentence_lemmas s0 = (Ret None, s0) /\
  Sentence_categories s0 = (Ret None, s0) /\
  Sentence_lemmas_and_cats s0 = (Ret None, s0) /\
  Sentence_ifd_tags s0 = (Ret None, s0) /\
  fst (Sentence_terminal_nodes s0) = Ret [] /\
  fst (Sentence_tidy_text s0) = Ret (correct_spaces txt) /\
  Sentence_dump s0 =
    (Ret {| dump_tokens := map _dump_token (map _load_token toks);
            dump_tree := None |}, s0).
Proof.
  cbv zeta.
  split; [reflexivity |]. split; [reflexivity |]. split; [reflexivity |].
  split; [reflexivity |]. split; [reflexivity |]. split; [reflexivity |].
  split; [reflexivity |]. split; [reflexivity |]. split; [reflexivity |].
  split; [reflexivity |]. split; [reflexivity |]. split; [reflexivity |].
  split; [reflexivity |]. split; [reflexivity |]. split; reflexivity.
Qed.

(** ** Parsing on demand and parsing immediately *)

(** The job with [self._parse] replaced. *)
Definition with_parse (v : bool) (j : Job) : Job :=
  mkJob (job_cls j) (_r j) (_tokens j) (_parse_time j) (_reduce_time j) v
    (_cnt_sent j) (_num_sent j) (_num_parsed j) (_num_tokens j)
    (_num_combinations j) (_total_ambig j) (_total_tokens j) (_root j)
    (_progress_func j) (_max_sent_tokens j).

(** A sentence handed to the consumer of the iteration. *)
Definition is_yield (e : event) : bool :=
  match e with
  | EvSentence _ => true
  | _ => false
  end.

(** The calls made to the tokenizer, the engines and the progress
    function, in order. *)
Definition calls_made (l : list event) : list event :=
  filter (fun e => negb (is_yield e)) l.

(** A job that parses on demand and one that parses immediately are at
    the same point. *)
Definition agree (wd we : World) : Prop :=
  _parse (job wd) = false /\
  job we = with_parse true (job wd) /\
  ticks we = ticks wd /\
  calls_made (log we) = calls_made (log wd).

(** The sentences and verdicts of the loop [for sent in job:
    sent.parse()] against the sentences a job that parses immediately
    hands out. *)
Definition same_sentences (re : outcome (list Sentence))
    (rd : outcome (list (bool * Sentence))) : Prop :=
  match re, rd with
  | Ret ss, Ret bss =>
      map snd bss = ss /\ map fst bss = map sentence_ok ss
  | Raise e, Raise e' => e = e'
  | _, _ => False
  end.

Lemma calls_made_app (a b : list event) :
  calls_made (a ++ b) = (calls_made a ++ calls_made b)%list.
Proof. apply filter_app. Qed.

Ltac agree_worlds wd we H :=
  let j := fresh "j" in
  let l := fresh "l" in
  let k := fresh "k" in
  let j' := fresh "j'" in
  let l' := fresh "l'" in
  let k' := fresh "k'" in
  let Hp := fresh "Hp" in
  let Hl := fresh "Hl" in
  destruct wd as [j l k]; destruct we as [j' l' k'];
  unfold agree in H; cbn [job log ticks] in H;
  destruct H as (Hp & -> & -> & Hl);
  destruct j; cbn [_parse] in Hp; subst.

Ltac agree_done :=
  split; [reflexivity |];
  split; [reflexivity |];
  split; [reflexivity |];
  split; [reflexivity |];
  cbn [log]; rewrite ?calls_made_app;
  match goal with
  | Hl : calls_made _ = calls_made _ |- _ => rewrite Hl
  end; reflexivity.

Lemma Job_parse_body_agree (tokens : TokenList) (t0 : R) (wd we : World) :
  agree wd we ->
  fst (Job_parse_body tokens t0 we) = fst (Job_parse_body tokens t0 wd) /\
  agree (snd (Job_parse_body tokens t0 wd))
        (snd (Job_parse_body tokens t0 we)).
Proof.
  intros H. agree_worlds wd we H.
  unfold Job_parse_body, agree, with_parse, parse_foreign_sentences.
  run_monad.
  destruct (negb (_max_sent_tokens0 =? 0) &&
            (_max_sent_tokens0 <? len tokens)); simpl; [agree_done |].
  destruct (negb (_parse_foreign_sentences _r0) &&
            tokens_are_foreign tokens ICELANDIC_RATIO); simpl;
    [agree_done |].
  destruct (parser_go tokens _root0) as [[f |] | [msg ix]]; simpl;
    [| agree_done | agree_done].
  destruct (1 <? num_combinations f); simpl; [| agree_done].
  destruct (go_with_score f) as [f' sc]; simpl. agree_done.
Qed.

Lemma add_sentence_agree (s : TokenList) (n : Z) (pt rt : R)
    (wd we : World) :
  agree wd we ->
  fst (Job_add_sentence s n pt rt we) = fst (Job_add_sentence s n pt rt wd) /\
  agree (snd (Job_add_sentence s n pt rt wd))
        (snd (Job_add_sentence s n pt rt we)).
Proof.
  intros H. agree_worlds wd we H.
  unfold Job_add_sentence, agree, with_parse. run_monad.
  destruct (0 <? n); simpl.
  - destruct (len s =? 0); simpl; [agree_done |].
    destruct _progress_func0; simpl; [| agree_done].
    destruct (0 <? _cnt_sent0); simpl; [| agree_done].
    destruct (_num_sent0 + 1 + 1 <=? _cnt_sent0); simpl; agree_done.
  - destruct _progress_func0; simpl; [| agree_done].
    destruct (0 <? _cnt_sent0); simpl; [| agree_done].
    destruct (_num_sent0 + 1 + 1 <=? _cnt_sent0); simpl; agree_done.
Qed.

Lemma agree_tick (wd we : World) : agree wd we -> agree (tick wd) (tick we).
Proof.
  intros (Hp & Hj & Hk & Hl). unfold agree, tick. cbn [job log ticks].
  rewrite Hk. auto.
Qed.

(** [_Job.parse] does not look at [self._parse]. *)
Lemma Job_parse_agree (tokens : TokenList) (wd we : World) :
  agree wd we ->
  fst (Job_parse tokens we) = fst (Job_parse tokens wd) /\
  agree (snd (Job_parse tokens wd)) (snd (Job_parse tokens we)).
Proof.
  intros H. pose proof H as (_ & _ & Hk & _).
  destruct (Job_parse_body tokens (time_time (ticks wd)) (tick wd))
    as [rd wd1] eqn:Ed.
  destruct (Job_parse_body tokens (time_time (ticks we)) (tick we))
    as [re we1] eqn:Ee.
  pose proof (Job_parse_body_agree tokens (time_time (ticks wd))
                (tick wd) (tick we) (agree_tick _ _ H)) as [Hr H1].
  pose proof Ee as Ee'. rewrite Hk in Ee'.
  rewrite Ed, Ee' in Hr, H1. cbn [fst snd] in Hr, H1. clear Ee'.
  subst re.
  rewrite (Job_parse_unfold tokens wd wd1 rd Ed).
  rewrite (Job_parse_unfold tokens we we1 rd Ee).
  cbv zeta. pose proof H1 as (_ & _ & Hk1 & _). rewrite Hk, Hk1.
  match goal with
  | |- context [Job_add_sentence ?s ?n ?pt ?rt (tick wd1)] =>
      pose proof (add_sentence_agree s n pt rt (tick wd1) (tick we1)
                    (agree_tick _ _ H1)) as [Ha H2];
      destruct (Job_add_sentence s n pt rt (tick wd1)) as [[ud | ed] wd2];
      destruct (Job_add_sentence s n pt rt (tick we1)) as [[ue | ee] we2]
  end; cbn [fst snd] in Ha, H2 |- *; try discriminate Ha.
  - split; [reflexivity | exact H2].
  - injection Ha as ->. split; [reflexivity | exact H2].
Qed.

(** [parse] on a sentence that has not been parsed, under the two
    jobs. *)
Lemma Sentence_parse_agree (tokens : TokenList) (self : Sentence)
    (wd we : World) :
  unparsed self tokens ->
  agree wd we ->
  fst (Sentence_parse (we, self)) = fst (Sentence_parse (wd, self)) /\
  snd (snd (Sentence_parse (we, self))) =
    snd (snd (Sentence_parse (wd, self))) /\
  agree (fst (snd (Sentence_parse (wd, self))))
        (fst (snd (Sentence_parse (we, self)))).
Proof.
  intros Hun H.
  rewrite (Sentence_parse_unparsed wd self tokens Hun).
  rewrite (Sentence_parse_unparsed we self tokens Hun).
  destruct (Job_parse_agree tokens wd we H) as [Hr H1].
  destruct (Job_parse tokens wd) as [rd wd1].
  destruct (Job_parse tokens we) as [re we1].
  cbn [fst snd] in Hr, H1. subst re.
  destruct rd as [[[tree num] score] | e].
  - split; [reflexivity |]. split; [reflexivity | exact H1].
  - destruct e; (split; [reflexivity |]; split; [reflexivity | exact H1]).
Qed.

(** The verdict of [parse] is what [combinations] says afterwards. *)
Lemma Sentence_parse_verdict (tokens : TokenList) (self self' : Sentence)
    (w w' : World) (b : bool) :
  unparsed self tokens ->
  Sentence_parse (w, self) = (Ret b, (w', self')) ->
  b = sentence_ok self'.
Proof.
  intros Hun. rewrite (Sentence_parse_unparsed w self tokens Hun).
  destruct (Job_parse tokens w) as [[[[tree num] score] | e] w1].
  - intros [= <- _ <-]. reflexivity.
  - destruct e; try discriminate. intros [= <- _ <-]. reflexivity.
Qed.

Lemma agree_emit_yield (sent : TokenList) (wd we : World) :
  agree wd we ->
  agree (mkWorld (job wd) (log wd ++ [EvSentence sent]) (ticks wd)) we /\
  agree wd (mkWorld (job we) (log we ++ [EvSentence sent]) (ticks we)).
Proof.
  intros (Hp & Hj & Hk & Hl). unfold agree. cbn [job log ticks].
  rewrite !calls_made_app. simpl. rewrite !app_nil_r. auto.
Qed.

Lemma agree_emit (e : event) (wd we : World) :
  agree wd we ->
  agree (mkWorld (job wd) (log wd ++ [e]) (ticks wd))
        (mkWorld (job we) (log we ++ [e]) (ticks we)).
Proof.
  intros (Hp & Hj & Hk & Hl). unfold agree. cbn [job log ticks].
  rewrite !calls_made_app, Hl. auto.
Qed.

(** One sentence of the iteration: created and parsed by the consumer
    under the job that parses on demand, created parsed under the
    other. *)
Lemma process_sentence_agree (sent : TokenList) (wd we : World) :
  agree wd we ->
  let rd := process_sentence sent wd in
  let re := (s <- Job_create_sentence sent ;;
             emit (EvSentence sent) ;;; ret s) we in
  agree (snd rd) (snd re) /\
  match fst re, fst rd with
  | Ret s, Ret (b, s') => s' = s /\ b = sentence_ok s
  | Raise e, Raise e' => e = e'
  | _, _ => False
  end.
Proof.
  intros H. cbv zeta.
  assert (Hinit : forall cls,
    let rd := (s <- Sentence_init cls sent ;;
               emit (EvSentence sent) ;;; parse_it s) wd in
    let re := (s <- Sentence_init cls sent ;;
               emit (EvSentence sent) ;;; ret s) we in
    agree (snd rd) (snd re) /\
    match fst re, fst rd with
    | Ret s, Ret (b, s') => s' = s /\ b = sentence_ok s
    | Raise e, Raise e' => e = e'
    | _, _ => False
    end).
  { intros cls. cbv zeta. unfold bind, Sentence_init.
    destruct (negb (0 <? len sent)); [split; [exact H | reflexivity] |].
    cbv zeta.
    pose proof H as (Hp & Hj & _).
    unfold parse_immediately. rewrite Hj. cbn [with_parse _parse].
    rewrite Hp. unfold emit, modify, ret, parse_it. cbn [job log ticks].
    destruct (agree_emit_yield sent wd we H) as [Hy _].
    pose proof (Sentence_parse_agree sent (new_sentence cls sent) _ we
                  (unparsed_new cls sent) Hy) as (Hr & Hs & H1).
    pose proof (Sentence_parse_verdict sent (new_sentence cls sent)) as Hv.
    match type of Hr with
    | _ = fst (Sentence_parse (?w0, _)) => set (wy := w0) in *
    end.
    destruct (Sentence_parse (wy, new_sentence cls sent))
      as [rd [wd1 sd]] eqn:Ed.
    destruct (Sentence_parse (we, new_sentence cls sent))
      as [re [we1 se]] eqn:Ee.
    cbn [fst snd] in Hr, Hs, H1. subst re se.
    destruct rd as [b | e]; cbn [fst snd].
    - split; [apply (agree_emit_yield sent wd1 we1 H1) |].
      split; [reflexivity |].
      apply (Hv sd wy wd1 b (unparsed_new cls sent) Ed).
    - split; [exact H1 | reflexivity]. }
  pose proof H as (_ & Hj & _).
  assert (Ed : process_sentence sent wd =
               (s <- Sentence_init (created_class (job wd)) sent ;;
                emit (EvSentence sent) ;;; parse_it s) wd).
  { unfold process_sentence, Job_create_sentence, bind, gets, created_class.
    destruct (job_cls (job wd)); reflexivity. }
  assert (Ee : (s <- Job_create_sentence sent ;;
                emit (EvSentence sent) ;;; ret s) we =
               (s <- Sentence_init (created_class (job wd)) sent ;;
                emit (EvSentence sent) ;;; ret s) we).
  { unfold Job_create_sentence, bind, gets, created_class. rewrite Hj.
    cbn [with_parse job_cls].
    destruct (job_cls (job wd)); reflexivity. }
  rewrite Ed, Ee. apply Hinit.
Qed.

Lemma sentences_loop_agree (lazy : bool) (p : list (Z * TokenList)) :
  forall wd we,
  agree wd we ->
  agree (snd (sentences_loop lazy p parse_it wd))
        (snd (sentences_loop lazy p (fun s => ret s) we)) /\
  same_sentences (fst (sentences_loop lazy p (fun s => ret s) we))
                 (fst (sentences_loop lazy p parse_it wd)).
Proof.
  induction p as [| [ix sent] rest IH]; intros wd we H.
  - split; [exact H |]. split; reflexivity.
  - set (wd0 := if lazy
                then mkWorld (job wd) (log wd ++ [EvSegment ix sent])
                       (ticks wd)
                else wd).
    set (we0 := if lazy
                then mkWorld (job we) (log we ++ [EvSegment ix sent])
                       (ticks we)
                else we).
    assert (H0 : agree wd0 we0).
    { unfold wd0, we0. destruct lazy; [apply agree_emit, H | exact H]. }
    pose proof (process_sentence_agree sent wd0 we0 H0) as [H1 Hres].
    cbv zeta in H1, Hres.
    assert (Ed : sentences_loop lazy ((ix, sent) :: rest) parse_it wd =
             match process_sentence sent wd0 with
             | (Ret a, w1) =>
                 match sentences_loop lazy rest parse_it w1 with
                 | (Ret r, w2) => (Ret (a :: r), w2)
                 | (Raise e, w2) => (Raise e, w2)
                 end
             | (Raise e, w1) => (Raise e, w1)
             end).
    { cbn [sentences_loop]. unfold process_sentence, bind, ret, wd0.
      destruct lazy; unfold emit, modify;
        (match goal with
         | |- context [Job_create_sentence sent ?w0] =>
             destruct (Job_create_sentence sent w0) as [[s | e] w1]
         end; [| reflexivity];
         match goal with
         | |- context [parse_it ?s0 ?w0] =>
             destruct (parse_it s0 w0) as [[a | e] w2]
         end; [| reflexivity];
         destruct (sentences_loop _ rest parse_it w2) as [[r | e] w3];
         reflexivity). }
    assert (Ee : sentences_loop lazy ((ix, sent) :: rest)
                   (fun s => ret s) we =
             match (s <- Job_create_sentence sent ;;
                    emit (EvSentence sent) ;;; ret s) we0 with
             | (Ret a, w1) =>
                 match sentences_loop lazy rest (fun s => ret s) w1 with
                 | (Ret r, w2) => (Ret (a :: r), w2)
                 | (Raise e, w2) => (Raise e, w2)
                 end
             | (Raise e, w1) => (Raise e, w1)
             end).
    { cbn [sentences_loop]. unfold bind, ret, we0.
      destruct lazy; unfold emit, modify;
        (match goal with
         | |- context [Job_create_sentence sent ?w0] =>
             destruct (Job_create_sentence sent w0) as [[s | e] w1]
         end; [| reflexivity];
         match goal with
         | |- context [sentences_loop _ rest ?b ?w0] =>
             destruct (sentences_loop _ rest b w0) as [[r | e] w3]
         end; reflexivity). }
    rewrite Ed, Ee. clear Ed Ee.
    destruct (process_sentence sent wd0) as [[[b s'] | e'] wd1];
      destruct ((s <- Job_create_sentence sent ;;
                 emit (EvSentence sent) ;;; ret s) we0)
        as [[s | e] we1];
      cbn [fst snd] in H1, Hres; try contradiction.
    + destruct Hres as [-> ->].
      destruct (IH wd1 we1 H1) as [H2 Hrest].
      destruct (sentences_loop lazy rest parse_it wd1) as [[bss | e'] wd2];
        destruct (sentences_loop lazy rest (fun s => ret s) we1)
          as [[ss | e] we2];
        cbn [fst snd] in H2, Hrest |- *; unfold same_sentences in *;
        try contradiction.
      * destruct Hrest as [<- Hv]. split; [exact H2 |].
        cbn [map fst snd]. rewrite Hv. split; reflexivity.
      * split; [exact H2 | exact Hrest].
    + split; [exact H1 | exact Hres].
Qed.

Lemma Job_paragraphs_agree (wd we : World) :
  agree wd we ->
  fst (Job_paragraphs we) = fst (Job_paragraphs wd) /\
  agree (snd (Job_paragraphs wd)) (snd (Job_paragraphs we)) /\
  exists lazy,
    fst (Job_paragraphs wd) =
      Ret (map (mkParagraph TheJob lazy) (paragraphs (_tokens (job wd)))).
Proof.
  intros H. agree_worlds wd we H.
  unfold Job_paragraphs, agree, with_parse. run_monad.
  destruct _progress_func0; simpl.
  - split; [reflexivity |]. split; [| exists false; reflexivity].
    split; [reflexivity |]. split; [reflexivity |].
    split; [reflexivity |].
    rewrite !calls_made_app, Hl. reflexivity.
  - split; [reflexivity |]. split; [| exists true; reflexivity].
    split; [reflexivity |]. split; [reflexivity |].
    split; [reflexivity | exact Hl].
Qed.

(** X15. Parsing on demand agrees with parsing immediately.  The loop
    [for sent in job: sent.parse()] over a job submitted with
    [parse=False] and the iteration of a job submitted with
    [parse=True], for the same text and options, produce the same
    sentence objects in the same states, with the verdict of each
    [parse()] being whether its sentence has combinations; if one
    raises, so does the other, with the same exception.  They leave the
    same statistics in the job, and make the same calls to the
    tokenizer, the engines and the progress function in the same
    order. *)
Theorem deferred_parsing_agrees (g : Greynir) (toks : list Tok)
    (progress_func : option callback) (max_sent_tokens : Z) :
  let immediate :=
    Job_sentences (fun s => ret s)
      (new_world (Greynir_submit g toks true progress_func max_sent_tokens)) in
  let deferred :=
    Job_sentences parse_it
      (new_world (Greynir_submit g toks false progress_func max_sent_tokens)) in
  same_sentences (fst immediate) (fst deferred) /\
  job (snd immediate) = with_parse true (job (snd deferred)) /\
  calls_made (log (snd immediate)) = calls_made (log (snd deferred)).
Proof.
  cbv zeta.
  set (we := new_world (Greynir_submit g toks true progress_func
                          max_sent_tokens)).
  set (wd := new_world (Greynir_submit g toks false progress_func
                          max_sent_tokens)).
  assert (H : agree wd we).
  { split; [reflexivity |]. split; [reflexivity |].
    split; reflexivity. }
  destruct (Job_paragraphs_agree wd we H) as (Hr & H1 & lazy & Hps).
  unfold Job_sentences, bind.
  destruct (Job_paragraphs wd) as [rd wd1].
  destruct (Job_paragraphs we) as [re we1].
  cbn [fst snd] in Hr, H1, Hps. subst re rd.
  rewrite !paragraphs_loop_flat.
  destruct (sentences_loop_agree lazy
              (List.concat (paragraphs (_tokens (job wd)))) wd1 we1 H1)
    as [H2 Hres].
  split; [exact Hres |].
  destruct H2 as (_ & Hj & _ & Hl). split; [exact Hj | exact Hl].
Qed.

End Extensions.

(** * The engines of the [Greynir] class

    [Greynir.parser], [Greynir.reducer] and [Greynir.cleanup] work on
    the class attributes [Greynir._parser] and [Greynir._reducer], which
    all instances share; [_Job.__init__] reads the two properties, in
    that order.  The engine classes are outside this module: an engine
    object is identified by the number of [Fast_Parser()] calls made
    before the parser it belongs to was constructed, and the calls made
    to the engine classes are recorded in a trace.  The lock is not
    modelled: calls are taken one at a time. *)

Section Engines.

(** A call made to the engine classes. *)
Inductive engine_call : Type :=
| Fast_Parser_new (p : nat)
| Reducer_new (p : nat)
| Fast_Parser_discard_grammar
| Fast_Parser_cleanup (p : nat).

(** The class attributes, and the trace. *)
Record GreynirClass : Type := mkGreynirClass {
  _parser : option nat;
  _reducer : option nat;
  calls : list engine_call
}.

(** The class as its definition leaves it. *)
Definition class_init : GreynirClass :=
  {| _parser := None; _reducer := None; calls := [] |}.

(** The number of parsers constructed so far. *)
Fixpoint constructed (l : list engine_call) : nat :=
  match l with
  | [] => O
  | Fast_Parser_new _ :: rest => S (constructed rest)
  | _ :: rest => constructed rest
  end.

(** [Greynir.parser] *)
Definition Greynir_parser : SE GreynirClass nat :=
  c <- gets (fun c => c) ;;
  match _parser c with
  | None =>
      (* Initialize a singleton instance of the parser and the reducer *)
      let p := constructed (calls c) in
      modify (fun c => mkGreynirClass (Some p) (_reducer c)
                         (calls c ++ [Fast_Parser_new p])) ;;;
      modify (fun c => mkGreynirClass (_parser c) (Some p)
                         (calls c ++ [Reducer_new p])) ;;;
      ret p
  | Some p => ret p
  end.

(** [Greynir.reducer] *)
Definition Greynir_reducer : SE GreynirClass nat :=
  c <- gets (fun c => c) ;;
  match _reducer c with
  | None => raise AssertionError
  | Some r => ret r
  end.

(** [Greynir.cleanup] *)
Definition Greynir_cleanup : SE GreynirClass unit :=
  modify (fun c => mkGreynirClass (_parser c) None (calls c)) ;;;
  c <- gets (fun c => c) ;;
  match _parser c with
  | Some p =>
      modify (fun c => mkGreynirClass (_parser c) (_reducer c)
                         (calls c ++ [Fast_Parser_discard_grammar])) ;;;
      modify (fun c => mkGreynirClass (_parser c) (_reducer c)
                         (calls c ++ [Fast_Parser_cleanup p])) ;;;
      modify (fun c => mkGreynirClass None (_reducer c) (calls c))
  | None => ret tt
  end.

(** The first two assignments of [_Job.__init__]: the engines the job
    keeps in [self._parser] and [self._reducer]. *)
Definition Job_engines : SE GreynirClass (nat * nat) :=
  p <- Greynir_parser ;;
  r <- Greynir_reducer ;;
  ret (p, r).

(** What a program can do to the class attributes. *)
Inductive engine_op : Type :=
| read_parser
| read_reducer
| call_cleanup
| make_job.

Definition engine_step (c : GreynirClass) (o : engine_op) : GreynirClass :=
  match o with
  | read_parser => snd (Greynir_parser c)
  | read_reducer => snd (Greynir_reducer c)
  | call_cleanup => snd (Greynir_cleanup c)
  | make_job => snd (Job_engines c)
  end.

(** The class after a sequence of operations. *)
Definition engine_run (ops : list engine_op) : GreynirClass :=
  fold_left engine_step ops class_init.

(** What holds of the class attributes between operations. *)
Record engines_inv (c : GreynirClass) : Prop := {
  inv_paired : _reducer c = _parser c;
  inv_bound : forall p, In (Fast_Parser_new p) (calls c) ->
                        (p < constructed (calls c))%nat;
  inv_current : forall p, _parser c = Some p ->
                          In (Fast_Parser_new p) (calls c) /\
                          ~ In (Fast_Parser_cleanup p) (calls c);
  inv_cleaned : forall p, In (Fast_Parser_new p) (calls c) ->
                          _parser c = Some p \/
                          In (Fast_Parser_cleanup p) (calls c);
  inv_built : forall p, In (Fast_Parser_cleanup p) (calls c) ->
                        In (Fast_Parser_new p) (calls c)
}.

Lemma constructed_app (a b : list engine_call) :
  constructed (a ++ b) = (constructed a + constructed b)%nat.
Proof.
  induction a as [| e a IH]; [reflexivity |].
  destruct e; simpl; rewrite IH; reflexivity.
Qed.

Lemma engines_inv_init : engines_inv class_init.
Proof.
  split; simpl; try tauto; discriminate.
Qed.

Lemma Greynir_parser_new (c : GreynirClass) :
  _parser c = None ->
  let p := constructed (calls c) in
  Greynir_parser c =
    (Ret p, mkGreynirClass (Some p) (Some p)
              ((calls c ++ [Fast_Parser_new p]) ++ [Reducer_new p])).
Proof.
  intros H. unfold Greynir_parser, bind, gets, modify, ret. rewrite H.
  reflexivity.
Qed.

Lemma Greynir_parser_old (c : GreynirClass) (p : nat) :
  _parser c = Some p -> Greynir_parser c = (Ret p, c).
Proof.
  intros H. unfold Greynir_parser, bind, gets, ret. rewrite H. reflexivity.
Qed.

Lemma Greynir_cleanup_some (c : GreynirClass) (p : nat) :
  _parser c = Some p ->
  Greynir_cleanup c =
    (Ret tt, mkGreynirClass None None
               ((calls c ++ [Fast_Parser_discard_grammar])
                ++ [Fast_Parser_cleanup p])).
Proof.
  intros H. unfold Greynir_cleanup, bind, gets, modify, ret. simpl.
  rewrite H. reflexivity.
Qed.

Lemma Greynir_cleanup_none (c : GreynirClass) :
  _parser c = None ->
  Greynir_cleanup c = (Ret tt, mkGreynirClass None None (calls c)).
Proof.
  intros H. unfold Greynir_cleanup, bind, gets, modify, ret. simpl.
  rewrite H. reflexivity.
Qed.

Lemma engines_inv_parser (c : GreynirClass) :
  engines_inv c -> engines_inv (snd (Greynir_parser c)).
Proof.
  intros I. destruct (_parser c) as [p |] eqn:Hp.
  - rewrite (Greynir_parser_old c p Hp). exact I.
  - rewrite (Greynir_parser_new c Hp). cbn [snd].
    set (n := constructed (calls c)).
    assert (Hfresh : ~ In (Fast_Parser_new n) (calls c)).
    { intros Hin. apply (inv_bound c I) in Hin. unfold n in Hin. lia. }
    split; cbn [_parser _reducer calls].
    + reflexivity.
    + intros p Hin. rewrite !constructed_app. simpl.
      apply in_app_or in Hin. destruct Hin as [Hin | [E | []]];
        [| discriminate].
      apply in_app_or in Hin. destruct Hin as [Hin | [E | []]].
      * apply (inv_bound c I) in Hin. lia.
      * injection E as <-. unfold n. lia.
    + intros p [= <-]. split.
      * apply in_or_app. left. apply in_or_app. right. left. reflexivity.
      * intros Hin.
        apply in_app_or in Hin. destruct Hin as [Hin | [E | []]];
          [| discriminate].
        apply in_app_or in Hin. destruct Hin as [Hin | [E | []]];
          [| discriminate].
        apply Hfresh, (inv_built c I), Hin.
    + intros p Hin.
      apply in_app_or in Hin. destruct Hin as [Hin | [E | []]];
        [| discriminate].
      apply in_app_or in Hin. destruct Hin as [Hin | [E | []]].
      * destruct (inv_cleaned c I p Hin) as [E | Hc]; [congruence |].
        right. apply in_or_app. left. apply in_or_app. left. exact Hc.
      * injection E as <-. left. reflexivity.
    + intros p Hin.
      apply in_app_or in Hin. destruct Hin as [Hin | [E | []]];
        [| discriminate].
      apply in_app_or in Hin. destruct Hin as [Hin | [E | []]];
        [| discriminate].
      apply in_or_app. left. apply in_or_app. left.
      apply (inv_built c I), Hin.
Qed.

Lemma engines_inv_reducer (c : GreynirClass) :
  engines_inv c -> engines_inv (snd (Greynir_reducer c)).
Proof.
  intros I. unfold Greynir_reducer, bind, gets.
  destruct (_reducer c); exact I.
Qed.

Lemma engines_inv_cleanup (c : GreynirClass) :
  engines_inv c -> engines_inv (snd (Greynir_cleanup c)).
Proof.
  intros I. destruct (_parser c) as [p |] eqn:Hp.
  - rewrite (Greynir_cleanup_some c p Hp). cbn [snd].
    split; cbn [_parser _reducer calls].
    + reflexivity.
    + intros q Hin. rewrite !constructed_app. simpl.
      apply in_app_or in Hin. destruct Hin as [Hin | [E | []]];
        [| discriminate].
      apply in_app_or in Hin. destruct Hin as [Hin | [E | []]];
        [| discriminate].
      apply (inv_bound c I) in Hin. lia.
    + discriminate.
    + intros q Hin. right.
      apply in_app_or in Hin. destruct Hin as [Hin | [E | []]];
        [| discriminate].
      apply in_app_or in Hin. destruct Hin as [Hin | [E | []]];
        [| discriminate].
      destruct (inv_cleaned c I q Hin) as [E | Hc].
      * rewrite Hp in E. injection E as <-.
        apply in_or_app. right. left. reflexivity.
      * apply in_or_app. left. apply in_or_app. left. exact Hc.
    + intros q Hin. apply in_or_app. left. apply in_or_app. left.
      apply in_app_or in Hin. destruct Hin as [Hin | [E | []]].
      * apply in_app_or in Hin. destruct Hin as [Hin | [E | []]];
          [| discriminate].
        apply (inv_built c I), Hin.
      * injection E as <-. apply (inv_current c I p Hp).
  - rewrite (Greynir_cleanup_none c Hp). cbn [snd].
    split; cbn [_parser _reducer calls].
    + reflexivity.
    + apply (inv_bound c I).
    + discriminate.
    + intros q Hin. destruct (inv_cleaned c I q Hin) as [E | Hc];
        [congruence | right; exact Hc].
    + apply (inv_built c I).
Qed.

Lemma Job_engines_spec (c : GreynirClass) :
  engines_inv c ->
  exists p,
    Job_engines c = (Ret (p, p), snd (Greynir_parser c)) /\
    fst (Greynir_parser c) = Ret p /\
    _parser (snd (Greynir_parser c)) = Some p.
Proof.
  intros I. unfold Job_engines, bind.
  destruct (_parser c) as [p |] eqn:Hp.
  - rewrite (Greynir_parser_old c p Hp). exists p.
    unfold Greynir_reducer, bind, gets. rewrite (inv_paired c I), Hp.
    cbn. rewrite Hp. auto.
  - rewrite (Greynir_parser_new c Hp). eexists.
    split; [reflexivity |]. split; reflexivity.
Qed.

Lemma engines_inv_job (c : GreynirClass) :
  engines_inv c -> engines_inv (snd (Job_engines c)).
Proof.
  intros I. destruct (Job_engines_spec c I) as (p & -> & _).
  apply engines_inv_parser, I.
Qed.

Lemma engines_inv_run (ops : list engine_op) : engines_inv (engine_run ops).
Proof.
  unfold engine_run. generalize class_init engines_inv_init.
  induction ops as [| o ops IH]; intros c I; [exact I |].
  apply IH. destruct o; simpl.
  - apply engines_inv_parser, I.
  - apply engines_inv_reducer, I.
  - apply engines_inv_cleanup, I.
  - apply engines_inv_job, I.
Qed.

(** X14. The engines of the class, after any sequence of reads of
    [parser] and [reducer], calls of [cleanup] and constructions of
    jobs.  The reducer exists exactly when the parser does and was built
    on its grammar.  Reading [reducer] fails its assertion exactly when
    there is no parser: before the first read of [parser], and after a
    [cleanup].  Constructing a job never fails: the job gets the current
    parser, or a newly constructed one that no earlier job had, together
    with the reducer that belongs to it, and a further read of [parser]
    gives the same object.  [cleanup] leaves no parser and no reducer,
    and a second [cleanup] does nothing.  Every parser ever constructed
    is the current one or has been cleaned up. *)
Theorem engines_paired (ops : list engine_op) :
  let c := engine_run ops in
  _reducer c = _parser c /\
  (Greynir_reducer c = (Raise AssertionError, c) <-> _parser c = None) /\
  (exists p c',
     Job_engines c = (Ret (p, p), c') /\
     _parser c' = Some p /\ _reducer c' = Some p /\
     Greynir_parser c' = (Ret p, c') /\
     match _parser c with
     | Some q => p = q /\ c' = c
     | None =>
         ~ In (Fast_Parser_new p) (calls c) /\
         calls c' = (calls c ++ [Fast_Parser_new p; Reducer_new p])%list
     end) /\
  (let c2 := snd (Greynir_cleanup c) in
   fst (Greynir_cleanup c) = Ret tt /\
   _parser c2 = None /\ _reducer c2 = None /\
   Greynir_cleanup c2 = (Ret tt, c2) /\
   calls c2 =
     (calls c ++
      match _parser c with
      | Some p => [Fast_Parser_discard_grammar; Fast_Parser_cleanup p]
      | None => []
      end)%list) /\
  (forall p, In (Fast_Parser_new p) (calls c) ->
             _parser c = Some p \/ In (Fast_Parser_cleanup p) (calls c)).
Proof.
  cbv zeta. pose proof (engines_inv_run ops) as I.
  set (c := engine_run ops) in *.
  split; [apply (inv_paired c I) |]. split.
  { unfold Greynir_reducer, bind, gets. rewrite (inv_paired c I).
    destruct (_parser c) as [p |]; split; intros H;
      try discriminate; reflexivity. }
  split.
  { destruct (Job_engines_spec c I) as (p & Hjob & Hfst & Hcur).
    exists p, (snd (Greynir_parser c)).
    pose proof (engines_inv_parser c I) as I'.
    split; [exact Hjob |]. split; [exact Hcur |].
    split; [rewrite (inv_paired _ I'); exact Hcur |].
    split; [apply Greynir_parser_old, Hcur |].
    destruct (_parser c) as [q |] eqn:Hp.
    - rewrite (Greynir_parser_old c q Hp) in Hfst |- *.
      injection Hfst as <-. split; reflexivity.
    - rewrite (Greynir_parser_new c Hp) in Hfst |- *.
      injection Hfst as <-. cbn [snd calls]. split.
      + intros Hin. apply (inv_bound c I) in Hin. lia.
      + rewrite <- app_assoc. reflexivity. }
  split.
  { destruct (_parser c) as [p |] eqn:Hp.
    - rewrite (Greynir_cleanup_some c p Hp). cbn [fst snd _parser _reducer].
      split; [reflexivity |]. split; [reflexivity |].
      split; [reflexivity |]. split; [reflexivity |].
      cbn [calls]. rewrite <- app_assoc. reflexivity.
    - rewrite (Greynir_cleanup_none c Hp). cbn [fst snd _parser _reducer].
      split; [reflexivity |]. split; [reflexivity |].
      split; [reflexivity |]. split; [reflexivity |].
      cbn [calls]. rewrite app_nil_r. reflexivity. }
  apply (inv_cleaned c I).
Qed.

End Engines.

(** * Examples

    The theorems above applied to the toy collaborators [demo], and the
    inputs on which statements that do not hold of the code fail. *)

#[local] Existing Instance demo.

Definition demo_greynir : Greynir := mkGreynir false.

(** A job that does not parse immediately and reports no progress. *)
Definition lazy_job (max_sent_tokens : Z) : Job :=
  Job_init Class_Job demo_greynir [] false None None max_sent_tokens.

(** A job with a progress function on which [paragraphs()] has not been
    started. *)
Definition unstarted_progress_job (max_sent_tokens : Z) : Job :=
  Job_init Class_Job demo_greynir [] false None (Some ProgressFunc)
    max_sent_tokens.

Definition two_words : TokenList := [word "a"; word "b"].

Definition foreign_words : TokenList := [word "hello"; word "world"].

Definition spaced_words : TokenList := [word "Hi"; word ","; word "there"].






(** Witness of [length_threshold]: two tokens against a threshold of
    one, in a job without a progress function. *)
Lemma length_threshold_witness :
  let w := new_world (lazy_job 1) in
  parser_calls (log (snd (Job_parse two_words w))) = parser_calls (log w) /\
  fst (Job_parse two_words w) =
    Raise (ParseError "Sentence is longer than 1 tokens" (Some 1)).
Proof.
  destruct (length_threshold (new_world (lazy_job 1)) two_words) as [H _].
  destruct H as [H1 H2]; [discriminate | reflexivity |].
  split; [exact H1 | apply H2; exact I].
Defined.

(** C3 as stated fails: in a job with a progress function whose
    sentences have not been counted, the assertion of the statistics
    update fails in the [finally] clause and replaces the
    length-exceeded error. *)
Lemma length_error_replaced_by_assertion :
  let w := new_world (unstarted_progress_job 1) in
  _max_sent_tokens (job w) = 1 /\ len two_words = 2 /\
  fst (Job_parse two_words w) = Raise AssertionError.
Proof.
  cbv zeta. repeat split.
Qed.


(** Witness of [foreign_filtering]: a foreign sentence of two tokens in
    a job with the default threshold. *)
Lemma foreign_filtering_witness :
  let w := new_world (lazy_job 90) in
  exists w' self',
    Sentence_parse (w, new_sentence Class_Sentence foreign_words) =
      (Ret false, (w', self')) /\
    fst (Sentence_err_index self') = Ret (Some 0) /\
    parser_calls (log w') = parser_calls (log w) /\
    Job_num_sentences (job w') = Job_num_sentences (job w) + 1 /\
    Job_num_parsed (job w') = Job_num_parsed (job w).
Proof.
  apply (foreign_filtering (new_world (lazy_job 90))
           (new_sentence Class_Sentence foreign_words) foreign_words).
  - apply unparsed_new.
  - reflexivity.
  - reflexivity.
  - intros [_ H]. discriminate H.
  - exact I.
Defined.

(** C6 as stated fails: a foreign sentence longer than the threshold is
    stopped by the length check, which comes first, and its error index
    is the threshold. *)
Lemma foreign_sentence_over_threshold :
  let w := new_world (lazy_job 1) in
  let after := Sentence_parse (w, new_sentence Class_Sentence foreign_words) in
  parse_foreign_sentences (job w) = false /\
  tokens_are_foreign foreign_words ICELANDIC_RATIO = true /\
  fst after = Ret false /\
  fst (Sentence_err_index (snd (snd after))) = Ret (Some 1).
Proof.
  cbv zeta. repeat split.
Qed.

(** Witness of [noun_phrase_root]. *)
Lemma noun_phrase_root_witness :
  Job_NP_init demo_greynir [] (Some "plural") =
    Ret (np_job demo_greynir [] "Nl_ft") /\
  Job_NP_init demo_greynir [] (Some "dual") =
    Raise (ValueError "Unexpected value of force_number") /\
  Greynir_parse_noun_phrase demo_greynir [] (Some "dual") =
    (Raise (ValueError "Unexpected value of force_number"), []).
Proof.
  destruct (noun_phrase_root demo_greynir []) as (_ & Hft & _ & Hbad & _).
  split; [apply Hft; right; reflexivity |].
  apply Hbad. simpl. intros [H | [H | [H | [H | [H | []]]]]]; discriminate H.
Defined.

(** C7 as stated fails: the empty string is a restriction that is not
    recognised, and it does not raise; it selects the root ["Nl"]. *)
Lemma empty_force_number_accepted :
  Job_NP_init demo_greynir [] (Some "") = Ret (np_job demo_greynir [] "Nl").
Proof. reflexivity. Qed.

(** Witness of [tidy_text_spec]: a sentence that has not been parsed. *)
Lemma tidy_text_spec_witness :
  let s := new_sentence Class_Sentence spaced_words in
  fst (Sentence_terminals s) = Ret None /\
  fst (Sentence_text s) = Ret (join " " (surface_forms spaced_words)) /\
  fst (Sentence_tidy_text s) =
    Ret (correct_spaces (join " " (surface_forms spaced_words))).
Proof.
  cbv zeta.
  destruct (tidy_text_spec spaced_words
              (new_sentence Class_Sentence spaced_words)
              (state_new spaced_words Class_Sentence)) as (_ & H2 & H3).
  assert (Hnone : fst (Sentence_terminals
                         (new_sentence Class_Sentence spaced_words))
                  = Ret None) by (apply H3; left; reflexivity).
  split; [exact Hnone | exact (H2 Hnone)].
Defined.

(** C8 as stated fails: for a sentence that has not been parsed,
    [tidy_text] is not [text] but [text] with its spacing corrected. *)
Lemma tidy_text_differs_from_text :
  let s := new_sentence Class_Sentence spaced_words in
  fst (Sentence_text s) = Ret "Hi , there" /\
  fst (Sentence_tidy_text s) = Ret "Hi, there".
Proof. cbv zeta. split; reflexivity. Qed.

(** Witness of [empty_sentence_asserted]. *)
Lemma empty_sentence_asserted_witness :
  let w := new_world (lazy_job 90) in
  Sentence_init Class_Sentence [] w = (Raise AssertionError, w) /\
  Sentence_init Class_Sentence two_words w =
    (Ret (new_sentence Class_Sentence two_words), w).
Proof.
  destruct (empty_sentence_asserted Class_Sentence (new_world (lazy_job 90)))
    as [H1 H2].
  split; [exact H1 | apply H2; reflexivity].
Defined.

(** C9 as stated fails: constructing a sentence from an empty token
    sequence is checked, and raises [AssertionError]. *)
Lemma empty_sentence_raises :
  fst (Sentence_init Class_Sentence [] (new_world (lazy_job 90))) =
  Raise AssertionError.
Proof. reflexivity. Qed.

(** A sentence of two words handed out unparsed and then parsed. *)
Definition parsed_two_words : Sentence :=
  snd (snd (Sentence_parse (new_world (lazy_job 90),
                            new_sentence Class_Sentence two_words))).

(** The same sentence when [terminal_nodes] was read before it was
    parsed. *)
Definition stale_two_words : Sentence :=
  snd (snd (Sentence_parse
              (new_world (lazy_job 90),
               snd (Sentence_terminal_nodes
                      (new_sentence Class_Sentence two_words))))).

(** The terminals of the tree of the two words. *)
Definition two_terminals : list Terminal :=
  [mkTerminal "a" "a" "no" [] 0; mkTerminal "b" "b" "no" [] 0].

(** C4 fails on the code: when [terminal_nodes] has been read before
    the sentence was parsed, the empty list it cached then is what
    [terminals] is built from after a successful parse, while the
    sentence loaded from the dump computes its terminals from the
    tree. *)
Lemma stale_terminal_nodes_break_round_trip :
  let loaded :=
    match fst (Sentence_dump stale_two_words) with
    | Ret d => Sentence_load_dump Class_Sentence d
    | Raise _ => stale_two_words
    end in
  _num stale_two_words = Some (Some 2) /\
  fst (Sentence_terminals stale_two_words) = Ret (Some []) /\
  fst (Sentence_terminals loaded) = Ret (Some two_terminals) /\
  fst (Sentence_categories stale_two_words) = Ret (Some []) /\
  fst (Sentence_categories loaded) = Ret (Some ["kk"; "kk"]).
Proof. cbv zeta. repeat split. Qed.

Lemma parsed_two_words_state : sentence_state two_words parsed_two_words.
Proof.
  unfold parsed_two_words.
  destruct (Sentence_parse (new_world (lazy_job 90),
                            new_sentence Class_Sentence two_words))
    as [r [w' self']] eqn:E.
  exact (state_parse two_words _ _ _ _ _
           (state_new two_words Class_Sentence) E).
Defined.

(** Witness of [dump_load_round_trip]: the sentence of two words, parsed
    and then dumped and loaded. *)
Lemma dump_load_round_trip_witness :
  exists d,
    Sentence_dump parsed_two_words = (Ret d, parsed_two_words) /\
    let loaded := Sentence_load_dump Class_Sentence d in
    fst (Sentence_terminals loaded) = fst (Sentence_terminals parsed_two_words) /\
    fst (Sentence_lemmas loaded) = fst (Sentence_lemmas parsed_two_words) /\
    fst (Sentence_categories loaded) =
      fst (Sentence_categories parsed_two_words) /\
    fst (Sentence_text loaded) = fst (Sentence_text parsed_two_words).
Proof.
  apply (dump_load_round_trip Class_Sentence two_words parsed_two_words).
  - exact parsed_two_words_state.
  - exists 2. split; [reflexivity | reflexivity].
  - intros nodes t H. discriminate H.
Defined.

(** ** Examples for the properties beyond the claims *)

(** A sentence the toy grammar engine has no derivation for. *)
Definition unparsable_words : TokenList := [word "?"; word "b"].

(** Witness of [parse_counts_every_call]: the two words are parsed with
    two combinations, and counted. *)
Lemma parse_counts_every_call_witness :
  let w := new_world (lazy_job 90) in
  let j' := job (snd (Job_parse two_words w)) in
  Job_num_sentences j' = 1 /\ Job_num_tokens j' = 2 /\
  Job_num_parsed j' = 1 /\ Job_num_combinations j' = 2.
Proof.
  cbv zeta.
  destruct (parse_counts_every_call two_words (new_world (lazy_job 90)))
    as (H1 & H2 & H3 & _).
  destruct (H3 (Some 1) 2 10 eq_refl) as [H4 H5].
  split; [exact H1 |]. split; [exact H2 |]. split; [exact H4 | exact H5].
Defined.

(** Witness of [engine_invocations]: both engines are invoked once for
    the two words. *)
Lemma engine_invocations_witness :
  let w' := snd (Job_parse two_words (new_world (lazy_job 90))) in
  parser_calls (log w') = [(two_words, None)] /\
  reducer_calls (log w') = [2] /\
  reaches_engine (lazy_job 90) two_words = true.
Proof.
  cbv zeta.
  destruct (engine_invocations two_words (new_world (lazy_job 90)))
    as (H1 & H2 & H3).
  destruct (H3 (Some 1) 2 10 eq_refl) as [H4 _].
  split; [exact H1 |]. split; [exact H2 | exact H4].
Defined.

(** Witness of [syntax_error_recorded]: a sentence without a
    derivation. *)
Lemma syntax_error_recorded_witness :
  exists w' self',
    Sentence_parse (new_world (lazy_job 90),
                    new_sentence Class_Sentence unparsable_words)
      = (Ret false, (w', self')) /\
    fst (Sentence_err_index self') = Ret (Some 1) /\
    fst (Sentence_error self') =
      Ret (Some (ParseError "No parse available" None)) /\
    Job_num_sentences (job w') = 1 /\
    Job_num_parsed (job w') = 0.
Proof.
  destruct (syntax_error_recorded (new_world (lazy_job 90))
              (new_sentence Class_Sentence unparsable_words)
              unparsable_words "No parse available" None)
    as (w' & self' & E & H1 & H2 & _ & _ & _ & _ & H3 & H4).
  - apply unparsed_new.
  - reflexivity.
  - reflexivity.
  - exact I.
  - exists w', self'. split; [exact E |]. split; [exact H1 |].
    split; [exact H2 |]. split; [exact H3 | exact H4].
Defined.

(** Witness of [error_coherence]: the parsed sentence of two words has
    no error. *)
Lemma error_coherence_witness :
  fst (Sentence_error parsed_two_words) = Ret None.
Proof.
  destruct (error_coherence two_words parsed_two_words
              parsed_two_words_state) as [_ H].
  apply H. exists 2. split; reflexivity.
Defined.

(** Witness of [aligned_views]: the views of the parsed sentence of two
    words are built on one list of nodes. *)
Lemma aligned_views_witness :
  exists nodes,
    fst (Sentence_terminal_nodes parsed_two_words) = Ret nodes /\
    fst (Sentence_terminals parsed_two_words) =
      Ret (Some (map Terminal_of_node nodes)) /\
    fst (Sentence_lemmas parsed_two_words) =
      Ret (Some (map node_lemma nodes)) /\
    fst (Sentence_categories parsed_two_words) =
      Ret (Some (map node_cat nodes)).
Proof.
  destruct (aligned_views two_words parsed_two_words
              parsed_two_words_state) as [_ H].
  destruct (H (mkSimpleTree ["a"; "b"]%string) eq_refl)
    as (nodes & _ & H1 & H2 & H3 & H4 & _).
  exists nodes. split; [exact H1 |]. split; [exact H2 |].
  split; [exact H3 | exact H4].
Defined.

(** Witness of [caching_transparent]: reading the views of the parsed
    sentence of two words. *)
Lemma caching_transparent_witness :
  observed (snd (Sentence_text parsed_two_words)) =
    observed parsed_two_words /\
  observed (snd (Sentence_terminals parsed_two_words)) =
    observed parsed_two_words /\
  observed (snd (Sentence_tidy_text parsed_two_words)) =
    observed parsed_two_words.
Proof.
  destruct (caching_transparent two_words parsed_two_words
              parsed_two_words_state) as (H1 & _ & H3 & _ & _ & _ & H7).
  split; [exact H1 |]. split; [exact H3 | exact H7].
Defined.




(** Witness of [time_accounting]: the clock of the toy collaborators
    counts its readings. *)
Lemma time_accounting_witness :
  let w := new_world (lazy_job 90) in
  let j' := job (snd (Job_parse two_words w)) in
  (0 <= Job_reduce_time j' - Job_reduce_time (job w)
     <= Job_parse_time j' - Job_parse_time (job w))%R.
Proof.
  cbv zeta.
  destruct (time_accounting two_words (new_world (lazy_job 90)))
    as [H _].
  - intros a b Hab. apply le_INR. exact Hab.
  - exact H.
Defined.

(** Witness of [engines_paired]: a job, a cleanup, and another job. *)
Lemma engines_paired_witness :
  let c := engine_run [make_job; call_cleanup; make_job] in
  _parser c = Some 1%nat /\ In (Fast_Parser_cleanup 0) (calls c).
Proof.
  cbv zeta.
  destruct (engines_paired [make_job; call_cleanup; make_job])
    as (_ & _ & _ & _ & H).
  destruct (H O) as [E | Hc].
  - left. reflexivity.
  - discriminate E.
  - split; [reflexivity | exact Hc].
Defined.
